(** * word-wheel-helper: the solver and the pipeline of [main.py]

    A shallow embedding of [src/solver/solver.py] and of the pure parts of
    [src/main.py], with the properties the specification states about them.

    Python strings are modelled as lists of characters.  A character is a
    code point of the range U+0000..U+00FF (the type [ascii] read as
    Latin-1): on that range the case mapping, the white space class and the
    line boundaries below are the ones of CPython's [str] methods. *)

From Stdlib Require Import ZArith Ascii String.
From stdpp Require Import base gmap sets list strings sorting.

(** ** The Python built-ins the program uses *)

Module Py.
Local Open Scope N_scope.

Definition str := list ascii.

(** A string literal. *)
Definition lit (x : string) : str := list_ascii_of_string x.

Definition ord (c : ascii) : N := N_of_ascii c.
Definition chr (n : N) : ascii := ascii_of_N n.

Definition in_range (lo hi : N) (c : ascii) : bool :=
  (lo <=? ord c) && (ord c <=? hi).

(** The character class [[a-z]]. *)
Definition is_az (c : ascii) : bool := in_range 97 122 c.

(** [str.isspace] on one character: TAB..CR, FS..US, space, NEL, NBSP. *)
Definition isspace (c : ascii) : bool :=
  in_range 9 13 c || in_range 28 32 c || (ord c =? 133) || (ord c =? 160).

(** [str.lower] on one character: A..Z and the capitals of Latin-1
    (U+00C0..U+00DE without the multiplication sign U+00D7). *)
Definition lower_char (c : ascii) : ascii :=
  if in_range 65 90 c || (in_range 192 222 c && negb (ord c =? 215))
  then chr (ord c + 32) else c.

Definition lower (s : str) : str := map lower_char s.

Fixpoint lstrip (s : str) : str :=
  match s with
  | c :: s' => if isspace c then lstrip s' else s
  | [] => []
  end.

Definition rstrip (s : str) : str := rev (lstrip (rev s)).

Definition strip (s : str) : str := rstrip (lstrip s).

(** [s.startswith(p)] *)
Fixpoint startswith (p s : str) : bool :=
  match p, s with
  | [], _ => true
  | _ :: _, [] => false
  | a :: p', b :: s' => bool_decide (a = b) && startswith p' s'
  end.

(** [p in s] on strings: [p] occurs as a substring of [s]. *)
Fixpoint contains (p s : str) : bool :=
  startswith p s ||
  match s with
  | [] => false
  | _ :: s' => contains p s'
  end.

(** [s.split(sep, 1)[0]] for a one-character separator. *)
Fixpoint split_first (sep : ascii) (s : str) : str :=
  match s with
  | [] => []
  | c :: s' => if bool_decide (c = sep) then [] else c :: split_first sep s'
  end.

(** The line boundaries of [str.splitlines]: LF, VT, FF, CR, FS, GS, RS
    and NEL; CR LF counts as one. *)
Definition is_linebreak (c : ascii) : bool :=
  in_range 10 13 c || in_range 28 30 c || (ord c =? 133).

Fixpoint splitlines_go (cur : str) (s : str) : list str :=
  match s with
  | [] => match cur with [] => [] | _ => [rev cur] end
  | c :: s' =>
      if is_linebreak c then
        rev cur ::
          match s' with
          | d :: s'' =>
              if (ord c =? 13) && (ord d =? 10) then splitlines_go [] s''
              else splitlines_go [] s'
          | [] => splitlines_go [] s'
          end
      else splitlines_go (c :: cur) s'
  end.

Definition splitlines (s : str) : list str := splitlines_go [] s.

(** The string ["\n"]. *)
Definition newline : str := [chr 10].

(** [sep.join(l)] *)
Fixpoint join (sep : str) (l : list str) : str :=
  match l with
  | [] => []
  | [x] => x
  | x :: l' => x ++ sep ++ join sep l'
  end.

(** The comparison [<] of two strings: lexicographic on code points. *)
Fixpoint str_lt (a b : str) : bool :=
  match a, b with
  | _, [] => false
  | [], _ :: _ => true
  | x :: a', y :: b' =>
      (ord x <? ord y) || ((ord x =? ord y) && str_lt a' b')
  end.

(** [sorted(l, key=key)], where [lt] is [<] on the keys: a merge sort that,
    like Python's, only asks whether one key is below another.  The program
    sorts sets with keys that tell the elements apart, and there the result
    is the same for every sorting algorithm and every order in which the set
    is walked ([sorted_unique] below). *)
Definition key_le {A K} (lt : K → K → bool) (key : A → K) : relation A :=
  λ x y, lt (key y) (key x) = false.

Global Instance key_le_dec {A K} (lt : K → K → bool) (key : A → K) x y :
  Decision (key_le lt key x y).
Proof. unfold key_le. apply _. Defined.

Definition sorted {A K} (lt : K → K → bool) (key : A → K) (l : list A) : list A :=
  merge_sort (key_le lt key) l.

(** [collections.Counter(s)]: each character of [s] with its number of
    occurrences. *)
Definition Counter (s : str) : gmap ascii nat :=
  foldl (λ m c, <[c := S (default 0%nat (m !! c))]> m) ∅ s.

(** [re.search(r"(.)\1\1", s)] finds something: three equal characters in
    a row, where [.] stands for any character but the line feed. *)
Fixpoint search_triple (s : str) : bool :=
  match s with
  | a :: ((b :: c :: _) as s') =>
      (negb (ord a =? 10) && bool_decide (a = b) && bool_decide (b = c))
      || search_triple s'
  | _ => false
  end.

(** [s.split(sep)] for a one-character separator: every occurrence cuts. *)
Fixpoint split (sep : ascii) (s : str) : list str :=
  match s with
  | [] => [[]]
  | c :: s' =>
      if bool_decide (c = sep) then [] :: split sep s'
      else match split sep s' with
           | x :: l => (c :: x) :: l
           | [] => [[c]]
           end
  end.

(** [s.split(sep, 1)] for a one-character separator: one piece when [sep]
    does not occur, else the part before the first [sep] and the rest. *)
Fixpoint split1 (sep : ascii) (s : str) : list str :=
  match s with
  | [] => [[]]
  | c :: s' =>
      if bool_decide (c = sep) then [[]; s']
      else match split1 sep s' with
           | x :: l => (c :: x) :: l
           | [] => [[c]]
           end
  end.

(** The double quote. *)
Definition dquote : ascii := chr 34.

(** [s.strip(chars)] for a one-character [chars]. *)
Fixpoint lstrip_char (x : ascii) (s : str) : str :=
  match s with
  | c :: s' => if bool_decide (c = x) then lstrip_char x s' else s
  | [] => []
  end.

Definition strip_char (x : ascii) (s : str) : str :=
  rev (lstrip_char x (rev (lstrip_char x s))).

(** [str.isdigit]: not empty, and digits only; besides 0..9 the superscripts
    two, three and one count as digits. *)
Definition isdigit_char (c : ascii) : bool :=
  in_range 48 57 c || (ord c =? 178) || (ord c =? 179) || (ord c =? 185).

Definition isdigit (s : str) : bool :=
  match s with
  | [] => false
  | _ :: _ => forallb isdigit_char s
  end.

(** The lines a text file gives in text mode with the default newline
    handling: CR LF and CR are read as LF, and every line keeps its LF. *)
Fixpoint readlines_go (cur : str) (s : str) : list str :=
  match s with
  | [] => match cur with [] => [] | _ => [rev cur] end
  | c :: s' =>
      if ord c =? 13 then
        rev (chr 10 :: cur) ::
          match s' with
          | d :: s'' => if ord d =? 10 then readlines_go [] s'' else readlines_go [] s'
          | [] => readlines_go [] s'
          end
      else if ord c =? 10 then rev (chr 10 :: cur) :: readlines_go [] s'
      else readlines_go (c :: cur) s'
  end.

Definition readlines (s : str) : list str := readlines_go [] s.

(** The white space [int] allows around a number: TAB..CR, space, NEL and
    NBSP (not FS..US, which [str.strip] takes off). *)
Definition int_space (c : ascii) : bool :=
  in_range 9 13 c || (ord c =? 32) || (ord c =? 133) || (ord c =? 160).

Fixpoint int_lstrip (s : str) : str :=
  match s with
  | c :: s' => if int_space c then int_lstrip s' else s
  | [] => []
  end.

(** The digits of a number with single underscores between them: the value
    read so far, the number of digits, and whether an underscore may come. *)
Fixpoint int_digits (acc : N) (count : nat) (after_digit : bool) (s : str)
  : option (N * nat) :=
  match s with
  | [] => if after_digit then Some (acc, count) else None
  | c :: s' =>
      if in_range 48 57 c then int_digits (10 * acc + (ord c - 48)) (S count) true s'
      else if (ord c =? 95) && after_digit then int_digits acc count false s'
      else None
  end.

(** [int(s)]; [None] stands for the [ValueError].  [max_str_digits] is
    [sys.get_int_max_str_digits()], 0 for no limit.  Among the characters of
    [str] here (U+0000..U+00FF) the decimal digits are 0..9 alone; the
    decimal digits of other scripts, which [int] reads as well, lie beyond
    them and are not covered. *)
Definition int (max_str_digits : nat) (s : str) : option Z :=
  let t := rev (int_lstrip (rev (int_lstrip s))) in
  let '(negative, body) :=
    match t with
    | c :: t' =>
        if ord c =? 45 then (true, t')
        else if ord c =? 43 then (false, t')
        else (false, t)
    | [] => (false, t)
    end in
  match int_digits 0 0 false body with
  | None => None
  | Some (n, count) =>
      if negb (max_str_digits =? 0)%nat && (max_str_digits <? count)%nat then None
      else Some (if negative then (- Z.of_N n)%Z else Z.of_N n)
  end.

End Py.

(** ** [src/solver/solver.py] *)

Module Solver.
Import Py.

(** [ASCII_RE.fullmatch(w)] for [ASCII_RE = re.compile(r"^[a-z]+$")]: the
    whole of [w] is one or more letters a..z. *)
Definition ASCII_RE_fullmatch (w : str) : bool :=
  match w with
  | [] => false
  | _ :: _ => forallb is_az w
  end.

(** [load_base_words] once the file is read: [lines] is the list of lines
    the loop of the function walks over. *)
Definition load_base_words (lines : list str) : list str :=
  let words : gset str :=
    foldl (λ (words : gset str) line,
             let w := lower (strip (split_first "/" line)) in
             if ASCII_RE_fullmatch w then {[ w ]} ∪ words else words)
          ∅ lines in
  sorted str_lt id (elements words).

Inductive exn : Type :=
| ValueError (msg : string).

Record result : Type := {
  valid_words : list str;
  pangrams_7_exact : list str;
  longest_words : list str;
  max_len : nat
}.

(** The comparison [<] of two keys [(-len(x), x)]: a tuple comparison. *)
Definition key_lt (a b : Z * str) : bool :=
  if (a.1 =? b.1)%Z then str_lt a.2 b.2 else (a.1 <? b.1)%Z.

Definition len_key (x : str) : Z * str := (- Z.of_nat (length x), x)%Z.

(** One round of the loop over the candidates; the state is the pair of
    the lists [valid] and [pangrams]. *)
Definition step (mandatory : str) (allowed_set : gset ascii)
    (allowed_counter : gmap ascii nat)
    (st : list str * list str) (w : str) : list str * list str :=
  let w := lower (strip w) in
  match w with
  | [] => st
  | _ :: _ =>
      if negb (ASCII_RE_fullmatch w) then st
      else if negb (contains mandatory w) then st
      else if bool_decide (list_to_set w ∖ allowed_set ≠ (∅ : gset ascii)) then st
      else
        (st.1 ++ [w],
         if bool_decide (length w = 7%nat) && bool_decide (Counter w = allowed_counter)
         then st.2 ++ [w] else st.2)
  end.

Definition solve_candidates (allowed mandatory : str) (candidates : list str)
  : exn + result :=
  let allowed := strip (lower allowed) in
  let mandatory := strip (lower mandatory) in
  if negb (bool_decide (length allowed = 7%nat))
     || negb (bool_decide (size (list_to_set allowed : gset ascii) = 7%nat))
     || negb (ASCII_RE_fullmatch allowed)
  then inl (ValueError "allowed must be exactly 7 distinct letters (a-z)")
  else if negb (bool_decide (length mandatory = 1%nat))
          || negb (ASCII_RE_fullmatch mandatory)
  then inl (ValueError "mandatory must be exactly one a-z letter")
  else if negb (contains mandatory allowed)
  then inl (ValueError "mandatory letter must be among allowed letters")
  else
    let allowed_set : gset ascii := list_to_set allowed in
    let allowed_counter := Counter allowed in
    let st := foldl (step mandatory allowed_set allowed_counter) ([], []) candidates in
    let valid := sorted key_lt len_key (elements (list_to_set st.1 : gset str)) in
    let pangrams := sorted str_lt id (elements (list_to_set st.2 : gset str)) in
    let max_len := match valid with w :: _ => length w | [] => 0%nat end in
    let longest := filter (λ w, length w = max_len) valid in
    inr {| valid_words := valid;
           pangrams_7_exact := pangrams;
           longest_words := longest;
           max_len := max_len |}.

(** The lines [load_base_words] walks over when an encoding has decoded the
    file to [text]: the first line is left out when, stripped, it is a
    number. *)
Definition decoded_lines (text : str) : list str :=
  let all := readlines text in
  let first := match all with x :: _ => x | [] => [] end in
  let rest := match all with _ :: l => l | [] => [] end in
  if isdigit (strip first) then rest else first :: rest.

(** [load_base_words] on a file an encoding of the list decodes to [text]. *)
Definition load_base_words_decoded (text : str) : list str :=
  load_base_words (decoded_lines text).

(** [load_base_words] on a file no encoding of the list decodes: [text] is
    what the last encoding gives with [errors="replace"], and all its lines
    are walked over. *)
Definition load_base_words_replaced (text : str) : list str :=
  load_base_words (readlines text).

End Solver.

(** ** [src/main.py] *)

Module Main.
Import Py.

Definition ASCII_RE_fullmatch (w : str) : bool :=
  match w with
  | [] => false
  | _ :: _ => forallb is_az w
  end.

(** [load_base_words] once the file is read, as in [solver.py]. *)
Definition load_base_words (lines : list str) : list str :=
  let words : gset str :=
    foldl (λ (words : gset str) line,
             let w := lower (strip (split_first "/" line)) in
             if ASCII_RE_fullmatch w then {[ w ]} ∪ words else words)
          ∅ lines in
  sorted str_lt id (elements words).

Definition looks_reasonable (word : str) (min_len : Z) : bool :=
  if (Z.of_nat (length word) <? min_len)%Z then false
  else if search_triple word then false
  else if (length word <=? 8)%nat && (length word mod 2 =? 0)%nat then
    let half := (length word / 2)%nat in
    if bool_decide (take half word = drop half word) then false else true
  else true.

Inductive exn : Type :=
| SystemExit (msg : string)
| IndexError.

(** A computation that may start the [hunspell] process: [Run argv dicpath
    input k] stands for [subprocess.run(argv, input=..., env=...)] with
    [DICPATH] set to [dicpath]; [k] receives the decoded standard output. *)
Inductive proc (A : Type) : Type :=
| Ret (a : A)
| Run (argv : list str) (dicpath : str) (input : str) (k : str → proc A).
Global Arguments Ret {A} a.
Global Arguments Run {A} argv dicpath input k.

Fixpoint bind {A B} (p : proc A) (f : A → proc B) : proc B :=
  match p with
  | Ret a => f a
  | Run argv d i k => Run argv d i (λ out, bind (k out) f)
  end.

(** Running a computation against a given behaviour of the process. *)
Fixpoint exec {A} (hunspell : list str → str → str → str) (p : proc A) : A :=
  match p with
  | Ret a => a
  | Run argv d i k => exec hunspell (k (hunspell argv d i))
  end.

(** The number of times a computation starts the process. *)
Fixpoint runs {A} (hunspell : list str → str → str → str) (p : proc A) : nat :=
  match p with
  | Ret _ => 0%nat
  | Run argv d i k => S (runs hunspell (k (hunspell argv d i)))
  end.

(** The lines of the output that count as results. *)
Definition result_lines (stdout : str) : list str :=
  strip <$> filter (λ line, strip line ≠ [] ∧ startswith (lit "@") line = false)
                   (splitlines stdout).

(** One round of [for i in range(n)]; an index out of range raises. *)
Definition accept_step (words result_lines : list str)
    (acc : exn + gset str) (i : nat) : exn + gset str :=
  match acc with
  | inl e => inl e
  | inr accepted =>
      match result_lines !! i with
      | None => inl IndexError
      | Some r =>
          if startswith (lit "*") r then
            match words !! i with
            | None => inl IndexError
            | Some w => inr ({[ w ]} ∪ accepted)
            end
          else inr accepted
      end
  end.

(** The part of [hunspell_filter_valid] after the process has ended. *)
Definition parse_output (words : list str) (stdout : str) : exn + gset str :=
  let result_lines := result_lines stdout in
  let n := (length words `min` length result_lines)%nat in
  foldl (accept_step words result_lines) (inr ∅) (seq 0 n).

Definition hunspell_filter_valid (words : list str) (dict_base dic_dir : str)
  : proc (exn + gset str) :=
  match words with
  | [] => Ret (inr ∅)
  | _ :: _ =>
      let inp := join newline words ++ newline in
      Run [lit "hunspell"; lit "-a"; lit "-d"; dict_base; lit "-i"; lit "UTF-8"]
          dic_dir inp
          (λ stdout, Ret (parse_output words stdout))
  end.

(** The loop of [solve] that builds [candidates] from [base_words]. *)
Definition prefilter (mandatory : str) (allowed_set : gset ascii)
    (min_len : Z) (enable_reasonable_filter : bool) (blacklist : gset str)
    (base_words : list str) : list str :=
  foldl (λ candidates w,
           if bool_decide (w ∈ blacklist) then candidates
           else if negb (contains mandatory w) then candidates
           else if bool_decide (list_to_set w ∖ allowed_set ≠ (∅ : gset ascii))
                then candidates
           else if enable_reasonable_filter && negb (looks_reasonable w min_len)
                then candidates
           else if negb enable_reasonable_filter
                   && (Z.of_nat (length w) <? min_len)%Z
                then candidates
           else candidates ++ [w])
        [] base_words.

(** What [solve] prints. *)
Record report : Type := {
  candidates : list str;
  allowed_letters : str;
  mandatory_letter : str;
  valid : list str;
  pangrams : list str;
  longest : option (nat * list str);
  top_30 : list str
}.

Definition solve (allowed mandatory : str) (base_words : list str)
    (dict_base dic_dir : str) (min_len : Z) (enable_reasonable_filter : bool)
    (blacklist : gset str) : proc (exn + report) :=
  let allowed := strip (lower allowed) in
  let mandatory := strip (lower mandatory) in
  if negb (bool_decide (length allowed = 7%nat))
     || negb (bool_decide (size (list_to_set allowed : gset ascii) = 7%nat))
     || negb (ASCII_RE_fullmatch allowed)
  then Ret (inl (SystemExit "ERROR: allowed must be exactly 7 distinct letters (a-z)"))
  else if negb (bool_decide (length mandatory = 1%nat))
          || negb (ASCII_RE_fullmatch mandatory)
  then Ret (inl (SystemExit "ERROR: mandatory must be exactly one a-z letter"))
  else if negb (contains mandatory allowed)
  then Ret (inl (SystemExit "ERROR: mandatory letter must be among the allowed letters"))
  else
    let allowed_set : gset ascii := list_to_set allowed in
    let allowed_counter := Counter allowed in
    let candidates := prefilter mandatory allowed_set min_len
                        enable_reasonable_filter blacklist base_words in
    bind (hunspell_filter_valid candidates dict_base dic_dir) (λ r,
      match r with
      | inl e => Ret (inl e)
      | inr accepted =>
          let valid := filter (λ w, w ∈ accepted) candidates in
          let valid :=
            sorted Solver.key_lt Solver.len_key (elements (list_to_set valid : gset str)) in
          let pangrams :=
            filter (λ w, length w = 7%nat ∧ Counter w = allowed_counter) valid in
          let pangrams := sorted str_lt id (elements (list_to_set pangrams : gset str)) in
          Ret (inr {| candidates := candidates;
                      allowed_letters := allowed;
                      mandatory_letter := mandatory;
                      valid := valid;
                      pangrams := pangrams;
                      longest :=
                        match valid with
                        | w :: _ =>
                            Some (length w, filter (λ x, length x = length w) valid)
                        | [] => None
                        end;
                      top_30 := take 30 valid |})
      end).

(** [os.environ] is a finite map from names to values, [gmap str str]. *)

(** What is found at a path: nothing, a readable file with its decoded text,
    or a directory. *)
Inductive node : Type :=
| File (text : str)
| Directory.

Inductive os_exn : Type :=
| OSError
| EnvValueError
| IsADirectoryError
| UnpackError.

Definition parse_list_env (env : gmap str str) (name default : str) : list str :=
  let raw := from_option id default (env !! name) in
  strip <$> filter (λ x, strip x ≠ []) (split "," raw).

Definition env_bool (env : gmap str str) (name : str) (default : bool) : bool :=
  match env !! name with
  | None => default
  | Some v =>
      bool_decide (lower (strip v) ∈ [lit "1"; lit "true"; lit "yes"; lit "y"; lit "on"])
  end.

Definition env_int (max_str_digits : nat) (env : gmap str str) (name : str) (default : Z) : Z :=
  match env !! name with
  | None => default
  | Some v =>
      match int max_str_digits v with
      | Some n => n
      | None => default
      end
  end.

(** [os.environ.setdefault(key, value)]: a name that is set stays; a name or
    a value with a NUL, and the empty name, cannot be put in the
    environment. *)
Definition setdefault (env : gmap str str) (key value : str) : os_exn + gmap str str :=
  match env !! key with
  | Some _ => inr env
  | None =>
      if bool_decide (chr 0 ∈ key) || bool_decide (chr 0 ∈ value) then inl EnvValueError
      else match key with
           | [] => inl OSError
           | _ :: _ => inr (<[key := value]> env)
           end
  end.

(** One round of the loop of [load_dotenv]. *)
Definition dotenv_step (acc : os_exn + gmap str str) (raw_line : str) : os_exn + gmap str str :=
  match acc with
  | inl e => inl e
  | inr env =>
      let line := strip raw_line in
      match line with
      | [] => inr env
      | _ :: _ =>
          if startswith (lit "#") line || negb (contains (lit "=") line) then inr env
          else match split1 "=" line with
               | [key; value] =>
                   let key := strip key in
                   let value := strip_char "'" (strip_char dquote (strip value)) in
                   setdefault env key value
               | _ => inl UnpackError
               end
      end
  end.

(** [load_dotenv]: [file] is what is found at [dotenv_path], and the
    environment is passed in and out. *)
Definition load_dotenv (file : option node) (env : gmap str str) : os_exn + gmap str str :=
  match file with
  | None => inr env
  | Some Directory => inl IsADirectoryError
  | Some (File text) => foldl dotenv_step (inr env) (splitlines text)
  end.

(** [load_blacklist]: [fs] tells what is found at a path. *)
Definition load_blacklist (fs : str → option node) (path : option str)
  : os_exn + gset str :=
  match path with
  | None | Some [] => inr ∅
  | Some path =>
      match fs path with
      | None => inr ∅
      | Some Directory => inl IsADirectoryError
      | Some (File text) =>
          inr (foldl (λ (out : gset str) line,
                        let w := lower (strip line) in
                        match w with
                        | [] => out
                        | _ :: _ =>
                            if negb (startswith (lit "#") w) && ASCII_RE_fullmatch w
                            then {[ w ]} ∪ out else out
                        end)
                     ∅ (splitlines text))
      end
  end.

End Main.

(** ** The notions the specification uses *)

Module Spec.
Import Py.

(** A string that does not start with white space. *)
Definition no_lead (s : str) : Prop :=
  match s with
  | c :: _ => isspace c = false
  | [] => True
  end.

(** The order of [valid_words]: longer words first, and words of one
    length in increasing lexicographic order. *)
Definition longer_then_lex (x y : str) : Prop :=
  (length y < length x)%nat ∨ (length x = length y ∧ str_lt x y = true).

(** The constraint arguments as [solve_candidates] and [solve] take them in:
    lowercased, then stripped. *)
Definition norm (s : str) : str := strip (lower s).

Definition all_az (w : str) : Prop := Forall (λ c, is_az c = true) w.

(** A valid constraint pair: seven distinct letters a..z, and one of them. *)
Definition valid_constraints (allowed mandatory : str) : Prop :=
  length allowed = 7%nat ∧ NoDup allowed ∧ all_az allowed ∧
  ∃ c, mandatory = [c] ∧ c ∈ allowed.

(** A word of the puzzle: not empty, letters a..z only, the mandatory letter
    in it, and no letter outside the allowed ones. *)
Definition puzzle_word (allowed mandatory w : str) : Prop :=
  w ≠ [] ∧ all_az w ∧ (∀ c, c ∈ mandatory → c ∈ w) ∧ (∀ c, c ∈ w → c ∈ allowed).

(** The number of times a letter occurs in a word. *)
Definition letter_count (c : ascii) (w : str) : nat := count_occ ascii_dec w c.

Definition same_letters (w a : str) : Prop :=
  ∀ c, letter_count c w = letter_count c a.

(** The four tests of the loop of [solve_candidates], taken together. *)
Definition keeps (mandatory : str) (allowed_set : gset ascii) (w : str) : bool :=
  match w with
  | [] => false
  | _ :: _ =>
      Solver.ASCII_RE_fullmatch w && contains mandatory w
      && bool_decide (list_to_set w ∖ allowed_set = (∅ : gset ascii))
  end.

(** A malformed constraint pair, the two arguments taken lowercased and
    stripped: [allowed] is not of length 7, or has a letter twice, or is not
    a..z only; [mandatory] is not exactly one letter a..z; or [mandatory] is
    not a member of [allowed]. *)
Definition malformed (allowed mandatory : str) : Prop :=
  length allowed ≠ 7%nat ∨ ¬ NoDup allowed ∨ ¬ all_az allowed ∨
  ¬ (∃ c, mandatory = [c] ∧ is_az c = true) ∨
  ¬ (∃ c, mandatory = [c] ∧ c ∈ allowed).

(** What a raw dictionary line stands for: the part before the first [/],
    stripped and lowercased. *)
Definition entry (line : str) : str := lower (strip (split_first "/" line)).

(** The line feed. *)
Definition LF : ascii := chr 10.

(** The character [c] stands three times in a row somewhere in [w]. *)
Definition triple (c : ascii) (w : str) : Prop :=
  ∃ u v, w = u ++ (c :: c :: c :: v).

(** [w] is of even length, at most 8, and is its first half twice. *)
Definition doubled (w : str) : Prop :=
  (length w ≤ 8)%nat ∧ (length w mod 2 = 0)%nat ∧
  w = take (length w / 2) w ++ take (length w / 2) w.


(** The heuristic with the line feed left out of the second condition. *)
Definition reasonable (w : str) (min_len : Z) : Prop :=
  (min_len ≤ Z.of_nat (length w))%Z ∧ ¬ (∃ c, c ≠ LF ∧ triple c w) ∧ ¬ doubled w.

(** A base word that gets through the prefilter. *)
Definition survives (allowed mandatory : str) (min_len : Z)
    (enable_reasonable_filter : bool) (blacklist : gset str) (w : str) : Prop :=
  (w ∉ blacklist) ∧
  (∀ c, c ∈ mandatory → c ∈ w) ∧
  (∀ c, c ∈ w → c ∈ allowed) ∧
  (if enable_reasonable_filter then Main.looks_reasonable w min_len = true
   else (min_len ≤ Z.of_nat (length w))%Z).

(** The five tests of the loop of [solve], taken together. *)
Definition passes (mandatory : str) (allowed_set : gset ascii) (min_len : Z)
    (enable_reasonable_filter : bool) (blacklist : gset str) (w : str) : bool :=
  negb (bool_decide (w ∈ blacklist)) && contains mandatory w
  && bool_decide (list_to_set w ∖ allowed_set = (∅ : gset ascii))
  && negb (enable_reasonable_filter && negb (Main.looks_reasonable w min_len))
  && negb (negb enable_reasonable_filter && (Z.of_nat (length w) <? min_len)%Z).

(** The set the specification gives for [hunspell_filter_valid]: the words
    at the positions, below both lengths, whose result line begins with the
    acceptance mark. *)
Definition accepted_at (words result_lines : list str) (w : str) : Prop :=
  ∃ i r, (i < length words `min` length result_lines)%nat ∧
         words !! i = Some w ∧ result_lines !! i = Some r ∧
         startswith (lit "*") r = true.

(** The lines of the test of [load_base_words], without the count line. *)
Definition test_lines : list str :=
  [lit "entstellen/A" ++ [LF]; lit "entstellen/B" ++ [LF];
   lit "stresstest" ++ [LF]; lit "r" ++ [chr 246] ++ lit "sten" ++ [LF];
   lit "abc-def" ++ [LF]].

(** The candidates of the second scenario of the specification. *)
Definition scenario_B : list str := lit <$> ["gfedcba"; "aaaaaaa"; "abcdefga"].

(** The candidates of the first scenario; the diacritic is U+00F6. *)
Definition scenario_A : list str :=
  [lit "entstellen"; lit "entstellen"; lit "stresstest"; lit "ALLERERSTE";
   lit "falsch"; lit "rennen"; lit "r" ++ [chr 246] ++ lit "sten"].

(** The result [solve_candidates] builds from the two lists of its loop. *)
Definition result_of (st : list str * list str) : Solver.result :=
  let valid :=
    sorted Solver.key_lt Solver.len_key (elements (list_to_set st.1 : gset str)) in
  let max_len := match valid with w :: _ => length w | [] => 0%nat end in
  {| Solver.valid_words := valid;
     Solver.pangrams_7_exact := sorted str_lt id (elements (list_to_set st.2 : gset str));
     Solver.longest_words := filter (λ w, length w = max_len) valid;
     Solver.max_len := max_len |}.

(** The three messages of [solve_candidates]. *)
Definition msg_allowed : string := "allowed must be exactly 7 distinct letters (a-z)".
Definition msg_mandatory : string := "mandatory must be exactly one a-z letter".
Definition msg_member : string := "mandatory letter must be among allowed letters".

(** [allowed], lowercased and stripped, is seven distinct letters a..z. *)
Definition allowed_ok (a : str) : Prop := length a = 7%nat ∧ NoDup a ∧ all_az a.

(** A string without line boundary. *)
Definition one_line (w : str) : Prop := Forall (λ c, is_linebreak c = false) w.

(** What the process prints when it keeps to its protocol: a header line,
    then for every word one answer line and one empty line. *)
Definition protocol_output (header : str) (answers : list str) : str :=
  header ++ newline ++ concat ((λ a, a ++ newline ++ newline) <$> answers).

(** An item as [parse_list_env] gives it: not empty, stripped, no comma. *)
Definition list_item (x : str) : Prop := x ≠ [] ∧ strip x = x ∧ ","%char ∉ x.

(** The name and the value a line of the [.env] file assigns, if any, as the
    loop of [load_dotenv] computes them. *)
Definition assignment (raw_line : str) : option (str * str) :=
  let line := strip raw_line in
  match line with
  | [] => None
  | _ :: _ =>
      if startswith (lit "#") line || negb (contains (lit "=") line) then None
      else match split1 "=" line with
           | [key; value] =>
               Some (strip key, strip_char "'" (strip_char dquote (strip value)))
           | _ => None
           end
  end.

(** The value of the first line that assigns [name]. *)
Fixpoint first_value (name : str) (lines : list str) : option str :=
  match lines with
  | [] => None
  | l :: lines' =>
      match assignment l with
      | Some (k, v) => if bool_decide (k = name) then Some v else first_value name lines'
      | None => first_value name lines'
      end
  end.

(** A small [.env] text: [A] is assigned a quoted 1, then 2. *)
Definition quoted_line : str := lit "A=" ++ [dquote] ++ lit "1" ++ [dquote].
Definition dotenv_sample : str := quoted_line ++ newline ++ lit "A=2".

(** The decimal digits of a natural number, most significant first. *)
Fixpoint digits_fuel (fuel : nat) (n : N) : str :=
  match fuel with
  | O => []
  | S fuel' =>
      if (n <? 10)%N then [chr (48 + n)]
      else digits_fuel fuel' (n / 10) ++ [chr (48 + n mod 10)]
  end.

Definition str_of_N (n : N) : str := digits_fuel (S (N.to_nat (N.size n))) n.

(** The number a run of digits stands for, read after [acc]. *)
Definition value_of (acc : N) (ds : str) : N :=
  foldl (λ a c, 10 * a + (ord c - 48))%N acc ds.

(** The decimal writing of an integer, as Python's [str] gives it. *)
Definition str_of_Z (z : Z) : str :=
  match z with
  | Zneg p => "-"%char :: str_of_N (Npos p)
  | _ => str_of_N (Z.to_N z)
  end.

(** A character that can stand in the text of a number, among the
    characters of [str] here. *)
Definition int_char (c : ascii) : bool :=
  in_range 48 57 c || bool_decide (c = "_"%char) || bool_decide (c = "+"%char)
  || bool_decide (c = "-"%char) || int_space c.

End Spec.

Import Spec.

(** ** Facts about the built-ins *)

Section builtins.
Import Py.

Local Ltac each_char c := destruct c as [[] [] [] [] [] [] [] []].

Lemma lower_char_az c : is_az c = true → lower_char c = c.
Proof. each_char c; vm_compute; congruence. Qed.

Lemma lower_char_idem c : lower_char (lower_char c) = lower_char c.
Proof. each_char c; reflexivity. Qed.

Lemma isspace_lower_char c : isspace (lower_char c) = isspace c.
Proof. each_char c; reflexivity. Qed.

Lemma is_az_not_space c : is_az c = true → isspace c = false.
Proof. each_char c; vm_compute; congruence. Qed.

Lemma ord_inj c d : ord c = ord d → c = d.
Proof.
  unfold ord. intros E.
  rewrite <- (ascii_N_embedding c), <- (ascii_N_embedding d). by rewrite E.
Qed.

Lemma lower_az w : all_az w → lower w = w.
Proof.
  unfold all_az, lower. induction w as [|c w IH]; [done|].
  rewrite Forall_cons. intros [Hc Hw]. simpl. by rewrite lower_char_az, IH.
Qed.

Lemma lower_idem s : lower (lower s) = lower s.
Proof.
  unfold lower. induction s as [|c s IH]; [done|].
  simpl. by rewrite lower_char_idem, IH.
Qed.

Lemma lower_rev s : lower (rev s) = rev (lower s).
Proof. unfold lower. by rewrite map_rev. Qed.

Lemma lstrip_lower s : lstrip (lower s) = lower (lstrip s).
Proof.
  induction s as [|c s IH]; [done|].
  cbn [lower map lstrip]. rewrite isspace_lower_char.
  destruct (isspace c); [apply IH | done].
Qed.

Lemma strip_lower s : strip (lower s) = lower (strip s).
Proof.
  unfold strip, rstrip.
  by rewrite lstrip_lower, <- lower_rev, lstrip_lower, lower_rev.
Qed.

Lemma lstrip_idem s : lstrip (lstrip s) = lstrip s.
Proof.
  induction s as [|c s IH]; [done|].
  simpl. destruct (isspace c) eqn:E; [done|]. simpl. by rewrite E.
Qed.

Lemma lstrip_app u v :
  lstrip (u ++ v) = if forallb isspace u then lstrip v else lstrip u ++ v.
Proof.
  induction u as [|c u IH]; [done|].
  simpl. destruct (isspace c); [apply IH | done].
Qed.

Lemma forallb_rev {A} (f : A → bool) l : forallb f (rev l) = forallb f l.
Proof.
  induction l as [|x l IH]; [done|].
  simpl. rewrite forallb_app, IH. simpl. destruct (f x), (forallb f l); done.
Qed.

Lemma rstrip_cons c t :
  rstrip (c :: t) =
    if forallb isspace t then (if isspace c then [] else [c])
    else c :: rstrip t.
Proof.
  unfold rstrip. simpl. rewrite lstrip_app, forallb_rev.
  destruct (forallb isspace t).
  - simpl. by destruct (isspace c).
  - by rewrite rev_app_distr.
Qed.

Lemma rstrip_idem s : rstrip (rstrip s) = rstrip s.
Proof. unfold rstrip. by rewrite rev_involutive, lstrip_idem. Qed.

Lemma lstrip_no_lead s : no_lead (lstrip s).
Proof.
  induction s as [|c s IH]; [done|].
  simpl. destruct (isspace c) eqn:E; [done|]. exact E.
Qed.

Lemma lstrip_id s : no_lead s → lstrip s = s.
Proof. destruct s as [|c s]; [done|]. simpl. by intros ->. Qed.

Lemma rstrip_no_lead s : no_lead s → no_lead (rstrip s).
Proof.
  destruct s as [|c s]; [done|]. simpl. intros E.
  rewrite rstrip_cons, E. by destruct (forallb isspace s).
Qed.

Lemma strip_idem s : strip (strip s) = strip s.
Proof.
  unfold strip.
  rewrite (lstrip_id (rstrip (lstrip s))), rstrip_idem; [done|].
  apply rstrip_no_lead, lstrip_no_lead.
Qed.

Lemma norm_idem s : norm (norm s) = norm s.
Proof. unfold norm. by rewrite strip_lower, strip_idem, <- strip_lower, lower_idem. Qed.

Lemma rstrip_az w : all_az w → rstrip w = w.
Proof.
  unfold all_az. induction 1 as [|c w Hc Hw IH]; [done|].
  rewrite rstrip_cons, IH, (is_az_not_space c Hc).
  destruct Hw as [|d w Hd Hw]; [done|].
  simpl. by rewrite (is_az_not_space d Hd).
Qed.

Lemma strip_az w : all_az w → strip w = w.
Proof.
  intros Hw. unfold strip. rewrite lstrip_id; [by apply rstrip_az|].
  destruct Hw as [|c w Hc _]; [done|]. by apply is_az_not_space.
Qed.

Lemma contains_single c w : contains [c] w = true ↔ c ∈ w.
Proof.
  induction w as [|d w IH].
  - simpl. split; [done | by intros ?%elem_of_nil].
  - cbn [contains startswith]. rewrite orb_true_iff, IH, elem_of_cons.
    rewrite andb_true_r, bool_decide_eq_true. naive_solver.
Qed.

Lemma forallb_Forall {A} (f : A → bool) l :
  forallb f l = true ↔ Forall (λ x, f x = true) l.
Proof.
  induction l as [|x l IH]; simpl.
  - split; [constructor | done].
  - rewrite andb_true_iff, IH, Forall_cons. done.
Qed.

Lemma letters_subset (w a : str) :
  (list_to_set w ∖ list_to_set a : gset ascii) = ∅ ↔ ∀ c, c ∈ w → c ∈ a.
Proof.
  split.
  - intros E c Hc. destruct (decide (c ∈ a)) as [|Hn]; [done|].
    assert (c ∈ (list_to_set w ∖ list_to_set a : gset ascii)) as Hin
      by (rewrite elem_of_difference, !elem_of_list_to_set; done).
    rewrite E in Hin. by apply not_elem_of_empty in Hin.
  - intros H. apply leibniz_equiv. intros c.
    rewrite elem_of_difference, !elem_of_list_to_set.
    split; [intros [H1 H2]; by apply H in H1 | by intros ?%not_elem_of_empty].
Qed.

Lemma size_list_to_set_le {A} `{Countable A} (l : list A) :
  (size (list_to_set l : gset A) ≤ length l)%nat.
Proof.
  induction l as [|x l IH]; [done|].
  simpl. destruct (decide (x ∈ (list_to_set l : gset A))) as [Hin|Hn].
  - replace ({[x]} ∪ list_to_set l : gset A) with (list_to_set l : gset A)
      by set_solver.
    lia.
  - rewrite size_union by set_solver. rewrite size_singleton. lia.
Qed.

Lemma size_list_to_set_NoDup {A} `{Countable A} (l : list A) :
  size (list_to_set l : gset A) = length l ↔ NoDup l.
Proof.
  split; [|apply size_list_to_set].
  induction l as [|x l IH]; [constructor|].
  simpl. intros E.
  destruct (decide (x ∈ (list_to_set l : gset A))) as [Hin|Hn].
  - replace ({[x]} ∪ list_to_set l : gset A) with (list_to_set l : gset A) in E
      by set_solver.
    pose proof (size_list_to_set_le l). lia.
  - rewrite size_union, size_singleton in E by set_solver.
    constructor; [by rewrite elem_of_list_to_set in Hn | apply IH; lia].
Qed.

End builtins.

(** ** Sorting with a key *)

Section sorting.
Context {A K : Type} (lt : K → K → bool) (key : A → K).
Hypothesis lt_irrefl : ∀ a, lt a a = false.
Hypothesis lt_trans : ∀ a b c, lt a b = true → lt b c = true → lt a c = true.
Hypothesis lt_total : ∀ a b, a ≠ b → lt a b = true ∨ lt b a = true.
Hypothesis key_inj : ∀ x y, key x = key y → x = y.
Hypothesis key_dec : ∀ a b : K, Decision (a = b).

Lemma lt_asym a b : lt a b = true → lt b a = false.
Proof.
  intros H1. destruct (lt b a) eqn:H2; [|done].
  by rewrite <- (lt_irrefl a), (lt_trans a b a).
Qed.

Lemma key_le_iff x y :
  Py.key_le lt key x y ↔ x = y ∨ lt (key x) (key y) = true.
Proof.
  unfold Py.key_le. split.
  - intros H. destruct (key_dec (key x) (key y)) as [E|N]; [left; auto|].
    destruct (lt_total _ _ N) as [?|H']; [by right | congruence].
  - intros [->|H]; [apply lt_irrefl | by apply lt_asym].
Qed.

Local Instance key_le_total : Total (Py.key_le lt key).
Proof.
  intros x y. rewrite !key_le_iff.
  destruct (key_dec (key x) (key y)) as [E|N]; [left; left; auto|].
  destruct (lt_total _ _ N); [left | right]; by right.
Qed.

Local Instance key_le_trans : Transitive (Py.key_le lt key).
Proof.
  intros x y z. rewrite !key_le_iff.
  intros [->|H1] [->|H2]; eauto.
Qed.

Lemma sorted_perm l : Py.sorted lt key l ≡ₚ l.
Proof. apply merge_sort_Permutation. Qed.

Lemma sorted_elem_of l x : x ∈ Py.sorted lt key l ↔ x ∈ l.
Proof. by rewrite sorted_perm. Qed.

Lemma sorted_NoDup l : NoDup l → NoDup (Py.sorted lt key l).
Proof. by rewrite sorted_perm. Qed.

Lemma strict_of_NoDup (R : relation A) l :
  StronglySorted R l → NoDup l → StronglySorted (λ x y, R x y ∧ x ≠ y) l.
Proof.
  induction 1 as [|x l Hl IH Hx]; [constructor|].
  rewrite NoDup_cons. intros [Hn Hd]. constructor; [by apply IH|].
  rewrite Forall_forall in Hx |- *. intros y Hy. split; [by apply Hx|].
  by intros ->.
Qed.

(** Sorting a list without duplicates gives a strictly increasing list. *)
Lemma sorted_strict l :
  NoDup l →
  StronglySorted (λ x y, lt (key x) (key y) = true) (Py.sorted lt key l).
Proof.
  intros Hd.
  pose proof (StronglySorted_merge_sort (Py.key_le lt key) l) as Hs.
  apply strict_of_NoDup in Hs; [|by apply sorted_NoDup].
  unfold Py.sorted.
  induction Hs as [|x l' Hl IH Hx]; constructor; [done|].
  eapply Forall_impl; [exact Hx|].
  intros y [[->|H]%key_le_iff N]; done.
Qed.

(** The order in which a set is walked does not change the sorted list. *)
Lemma sorted_unique l1 l2 :
  NoDup l1 → l1 ≡ₚ l2 → Py.sorted lt key l1 = Py.sorted lt key l2.
Proof.
  intros Hd Hp.
  assert (AntiSymm (=) (λ x y, lt (key x) (key y) = true)) as Hanti.
  { intros x y H1 H2. by rewrite (lt_asym _ _ H1) in H2. }
  eapply (StronglySorted_unique (λ x y, lt (key x) (key y) = true)).
  - by apply sorted_strict.
  - apply sorted_strict. by rewrite <- Hp.
  - by rewrite !sorted_perm.
Qed.

End sorting.

Section orders.
Import Py.

Lemma str_lt_irrefl a : str_lt a a = false.
Proof.
  induction a as [|x a IH]; [done|].
  simpl. by rewrite N.ltb_irrefl, N.eqb_refl, IH.
Qed.

Lemma str_lt_trans a b c :
  str_lt a b = true → str_lt b c = true → str_lt a c = true.
Proof.
  revert b c. induction a as [|x a IH]; intros [|y b] [|z c]; simpl; try done.
  rewrite !orb_true_iff, !andb_true_iff, !N.ltb_lt, !N.eqb_eq.
  intros [H1|[H1 H1']] [H2|[H2 H2']].
  - left. lia.
  - left. lia.
  - left. lia.
  - right. split; [lia | by eapply IH].
Qed.

Lemma str_lt_total a b : a ≠ b → str_lt a b = true ∨ str_lt b a = true.
Proof.
  revert b. induction a as [|x a IH]; intros [|y b] N; simpl; auto.
  rewrite !orb_true_iff, !andb_true_iff, !N.ltb_lt, !N.eqb_eq.
  destruct (N.lt_trichotomy (ord x) (ord y)) as [H|[H|H]]; auto.
  apply ord_inj in H as ->.
  destruct (IH b) as [H|H]; [congruence | auto | auto].
Qed.

Lemma key_lt_irrefl a : Solver.key_lt a a = false.
Proof. unfold Solver.key_lt. rewrite Z.eqb_refl. apply str_lt_irrefl. Qed.

Lemma key_lt_trans a b c :
  Solver.key_lt a b = true → Solver.key_lt b c = true → Solver.key_lt a c = true.
Proof.
  unfold Solver.key_lt.
  destruct (Z.eqb_spec a.1 b.1) as [E1|N1], (Z.eqb_spec b.1 c.1) as [E2|N2],
    (Z.eqb_spec a.1 c.1) as [E3|N3]; rewrite ?Z.ltb_lt; try lia;
    eauto using str_lt_trans.
Qed.

Lemma key_lt_total a b :
  a ≠ b → Solver.key_lt a b = true ∨ Solver.key_lt b a = true.
Proof.
  destruct a as [n x], b as [m y]. unfold Solver.key_lt. simpl. intros N.
  destruct (Z.eqb_spec n m) as [->|N1].
  - rewrite Z.eqb_refl. apply str_lt_total. congruence.
  - destruct (Z.eqb_spec m n); [congruence|]. rewrite !Z.ltb_lt. lia.
Qed.

Lemma len_key_inj x y : Solver.len_key x = Solver.len_key y → x = y.
Proof. unfold Solver.len_key. congruence. Qed.

Lemma key_lt_longer_then_lex x y :
  Solver.key_lt (Solver.len_key x) (Solver.len_key y) = true ↔ longer_then_lex x y.
Proof.
  unfold Solver.key_lt, Solver.len_key, longer_then_lex. simpl.
  destruct (Z.eqb_spec (- Z.of_nat (length x)) (- Z.of_nat (length y))) as [E|N].
  - split; [intros H; right; split; [lia | done] | intros [?|[_ ?]]; [lia | done]].
  - rewrite Z.ltb_lt. split; [lia | intros [?|[? _]]; lia].
Qed.

Lemma sorted_len_key l :
  NoDup l → StronglySorted longer_then_lex (sorted Solver.key_lt Solver.len_key l).
Proof.
  intros Hd.
  pose proof (sorted_strict Solver.key_lt Solver.len_key key_lt_irrefl key_lt_trans
                key_lt_total len_key_inj _ l Hd) as Hs.
  induction Hs as [|x l' Hl IH Hx]; constructor; [done|].
  eapply Forall_impl; [exact Hx|]. intros y. by rewrite key_lt_longer_then_lex.
Qed.

Lemma sorted_lex l :
  NoDup l → StronglySorted (λ x y, str_lt x y = true) (sorted str_lt id l).
Proof.
  intros Hd.
  exact (sorted_strict str_lt id str_lt_irrefl str_lt_trans str_lt_total
           (λ x y H, H) _ l Hd).
Qed.

End orders.

(** ** The loop of [solve_candidates] *)

Section solver.
Import Py Solver.

Lemma fullmatch_iff w : ASCII_RE_fullmatch w = true ↔ w ≠ [] ∧ all_az w.
Proof.
  destruct w as [|c w]; [naive_solver|].
  unfold ASCII_RE_fullmatch, all_az. rewrite forallb_Forall. naive_solver.
Qed.

Lemma Counter_foldl (m : gmap ascii nat) s c :
  foldl (λ m c, <[c := S (default 0%nat (m !! c))]> m) m s !! c =
    if decide (letter_count c s = 0%nat) then m !! c
    else Some (default 0%nat (m !! c) + letter_count c s)%nat.
Proof.
  unfold letter_count. revert m. induction s as [|x s IH]; intros m; [done|].
  cbn [foldl count_occ]. rewrite IH. destruct (ascii_dec x c) as [->|N].
  - rewrite lookup_insert_eq. simpl.
    repeat case_decide; try lia; f_equal; lia.
  - rewrite lookup_insert_ne by done. by repeat case_decide.
Qed.

Lemma Counter_lookup s c :
  Counter s !! c =
    if decide (letter_count c s = 0%nat) then None else Some (letter_count c s).
Proof. unfold Counter. rewrite Counter_foldl, lookup_empty. done. Qed.

Lemma Counter_eq w a : Counter w = Counter a ↔ same_letters w a.
Proof.
  split.
  - intros E c. pose proof (Counter_lookup w c) as H1.
    pose proof (Counter_lookup a c) as H2. rewrite E in H1. rewrite H1 in H2.
    repeat case_decide; congruence.
  - intros H. apply map_eq. intros c. by rewrite !Counter_lookup, (H c).
Qed.

Lemma same_letters_perm w a : same_letters w a ↔ w ≡ₚ a.
Proof.
  unfold same_letters, letter_count. symmetry.
  apply (Permutation_count_occ ascii_dec).
Qed.

Lemma keeps_iff c a w :
  keeps [c] (list_to_set a) w = true ↔ puzzle_word a [c] w.
Proof.
  unfold puzzle_word. destruct w as [|d w].
  - simpl. naive_solver.
  - cbn [keeps]. rewrite !andb_true_iff, fullmatch_iff, contains_single,
      bool_decide_eq_true, letters_subset.
    split.
    + intros [[[? ?] ?] ?]. repeat split; try done.
      by intros ? ->%list_elem_of_singleton.
    + intros (? & ? & Hm & ?). repeat split; try done.
      apply Hm. by apply list_elem_of_singleton.
Qed.

Lemma step_keeps m aset ac st c :
  step m aset ac st c =
    let w := lower (strip c) in
    if keeps m aset w then
      (st.1 ++ [w],
       if bool_decide (length w = 7%nat) && bool_decide (Counter w = ac)
       then st.2 ++ [w] else st.2)
    else st.
Proof.
  unfold step. cbv zeta. destruct (lower (strip c)) as [|d w] eqn:E; [done|].
  cbn [keeps].
  destruct (ASCII_RE_fullmatch (d :: w)); [|done].
  destruct (contains m (d :: w)); [|done].
  cbn [negb andb].
  destruct (decide (list_to_set (d :: w) ∖ aset = (∅ : gset ascii))) as [Es|Ns].
  - rewrite (bool_decide_eq_false_2 _) by (intros N; by apply N).
    by rewrite (bool_decide_eq_true_2 _ Es).
  - rewrite (bool_decide_eq_true_2 _ Ns). by rewrite (bool_decide_eq_false_2 _ Ns).
Qed.

Lemma foldl_step_1 m aset ac st cands :
  (foldl (step m aset ac) st cands).1 =
    st.1 ++ filter (λ w, keeps m aset w = true) ((λ c, lower (strip c)) <$> cands).
Proof.
  revert st. induction cands as [|c cands IH]; intros st.
  - simpl. by rewrite app_nil_r.
  - cbn [foldl fmap list_fmap]. rewrite IH, step_keeps. cbv zeta.
    rewrite filter_cons. destruct (keeps m aset (lower (strip c))) eqn:E.
    + rewrite decide_True by done. simpl. by rewrite <- app_assoc.
    + rewrite decide_False by done. done.
Qed.

Lemma foldl_step_2 m aset ac st cands :
  (foldl (step m aset ac) st cands).2 =
    st.2 ++ filter (λ w, keeps m aset w = true ∧ length w = 7%nat ∧ Counter w = ac)
              ((λ c, lower (strip c)) <$> cands).
Proof.
  revert st. induction cands as [|c cands IH]; intros st.
  - simpl. by rewrite app_nil_r.
  - cbn [foldl fmap list_fmap]. rewrite IH, step_keeps. cbv zeta.
    rewrite filter_cons. destruct (keeps m aset (lower (strip c))) eqn:E.
    + destruct (decide (length (lower (strip c)) = 7%nat)) as [E1|N1];
        destruct (decide (Counter (lower (strip c)) = ac)) as [E2|N2];
        rewrite ?(bool_decide_eq_true_2 _ E1), ?(bool_decide_eq_true_2 _ E2),
          ?(bool_decide_eq_false_2 _ N1), ?(bool_decide_eq_false_2 _ N2);
        cbn [andb snd].
      * rewrite decide_True by done. by rewrite <- app_assoc.
      * rewrite decide_False by naive_solver. done.
      * rewrite decide_False by naive_solver. done.
      * rewrite decide_False by naive_solver. done.
    + rewrite decide_False by naive_solver. done.
Qed.

(** The three checks of the constraints, as the code makes them. *)
Lemma checks_pass a m :
  valid_constraints a m →
  negb (bool_decide (length a = 7%nat))
  || negb (bool_decide (size (list_to_set a : gset ascii) = 7%nat))
  || negb (ASCII_RE_fullmatch a) = false
  ∧ negb (bool_decide (length m = 1%nat)) || negb (ASCII_RE_fullmatch m) = false
  ∧ negb (contains m a) = false.
Proof.
  intros (Hl & Hd & Haz & c & -> & Hc).
  assert (ASCII_RE_fullmatch a = true) as ->.
  { apply fullmatch_iff. split; [by destruct a | done]. }
  assert (ASCII_RE_fullmatch [c] = true) as ->.
  { apply fullmatch_iff. split; [done|]. constructor; [|constructor].
    unfold all_az in Haz. rewrite Forall_forall in Haz. by apply Haz. }
  rewrite (proj2 (contains_single c a) Hc).
  rewrite (bool_decide_eq_true_2 _ Hl).
  apply size_list_to_set_NoDup in Hd. rewrite Hl in Hd.
  rewrite (bool_decide_eq_true_2 _ Hd). done.
Qed.

Lemma checks_valid a m :
  negb (bool_decide (length a = 7%nat))
  || negb (bool_decide (size (list_to_set a : gset ascii) = 7%nat))
  || negb (ASCII_RE_fullmatch a) = false →
  negb (bool_decide (length m = 1%nat)) || negb (ASCII_RE_fullmatch m) = false →
  negb (contains m a) = false →
  valid_constraints a m.
Proof.
  rewrite !orb_false_iff, !negb_false_iff, !bool_decide_eq_true, !fullmatch_iff.
  intros [[Hl Hs] [_ Haz]] [Hm _] Hc.
  destruct m as [|c [|? ?]]; try done.
  apply contains_single in Hc.
  repeat split; [done | | done | by exists c].
  apply size_list_to_set_NoDup. congruence.
Qed.

Lemma norm_valid a m : valid_constraints a m → norm a = a ∧ norm m = m.
Proof.
  intros (Hl & Hd & Haz & c & -> & Hc). unfold norm.
  assert (all_az [c]) as Hc'.
  { constructor; [|constructor]. unfold all_az in Haz.
    rewrite Forall_forall in Haz. by apply Haz. }
  by rewrite !lower_az, !strip_az.
Qed.

End solver.
(** ** [solve_candidates] *)

Ltac by_compute := apply (bool_decide_unpack _); vm_compute; exact I.

Section solve_candidates.
Import Py Solver.

Lemma solve_candidates_valid a m cands :
  valid_constraints a m →
  solve_candidates a m cands =
    inr (let st := foldl (step m (list_to_set a) (Counter a)) ([], []) cands in
         let valid := sorted key_lt len_key (elements (list_to_set st.1 : gset str)) in
         let max_len := match valid with w :: _ => length w | [] => 0%nat end in
         {| valid_words := valid;
            pangrams_7_exact := sorted str_lt id (elements (list_to_set st.2 : gset str));
            longest_words := filter (λ w, length w = max_len) valid;
            max_len := max_len |}).
Proof.
  intros H. unfold solve_candidates. cbv zeta.
  change (strip (lower a)) with (norm a). change (strip (lower m)) with (norm m).
  destruct (norm_valid a m H) as [-> ->].
  destruct (checks_pass a m H) as (-> & -> & ->). done.
Qed.

Lemma valid_constraints_not_malformed a m : valid_constraints a m → ¬ malformed a m.
Proof.
  intros (Hl & Hd & Haz & c & -> & Hc) [?|[?|[?|[N|N]]]]; try done.
  - apply N. exists c. split; [done|].
    unfold all_az in Haz. rewrite Forall_forall in Haz. by apply Haz.
  - apply N. by exists c.
Qed.

Lemma elem_of_sorted_set {K} (lt : K → K → bool) (key : str → K) (l : list str) w :
  w ∈ sorted lt key (elements (list_to_set l : gset str)) ↔ w ∈ l.
Proof. by rewrite sorted_elem_of, elem_of_elements, elem_of_list_to_set. Qed.

Lemma NoDup_sorted_set {K} (lt : K → K → bool) (key : str → K) (l : list str) :
  NoDup (sorted lt key (elements (list_to_set l : gset str))).
Proof. apply sorted_NoDup, NoDup_elements. Qed.

Lemma elem_of_valid c a cands w :
  w ∈ (foldl (step [c] (list_to_set a) (Counter a)) ([], []) cands).1 ↔
    (∃ x, x ∈ cands ∧ w = lower (strip x)) ∧ puzzle_word a [c] w.
Proof.
  rewrite foldl_step_1. simpl.
  rewrite list_elem_of_filter, list_elem_of_fmap, keeps_iff. naive_solver.
Qed.

Lemma elem_of_pangrams c a cands w :
  w ∈ (foldl (step [c] (list_to_set a) (Counter a)) ([], []) cands).2 ↔
    w ∈ (foldl (step [c] (list_to_set a) (Counter a)) ([], []) cands).1
    ∧ length w = 7%nat ∧ same_letters w a.
Proof.
  rewrite foldl_step_1, foldl_step_2. simpl.
  rewrite !list_elem_of_filter, Counter_eq. naive_solver.
Qed.

Lemma longest_first x l :
  StronglySorted longer_then_lex (x :: l) →
  max_list_with length (x :: l) = length x.
Proof.
  intros [Hx _]%StronglySorted_cons. simpl.
  induction l as [|y l IH]; [simpl; lia|].
  apply Forall_cons in Hx as [Hy Hx]. simpl in *.
  specialize (IH Hx). unfold longer_then_lex in Hy. lia.
Qed.

Lemma longer_then_lex_asym x y : longer_then_lex x y → longer_then_lex y x → False.
Proof.
  rewrite <- !key_lt_longer_then_lex. intros H1 H2.
  by rewrite (lt_asym key_lt key_lt_irrefl key_lt_trans _ _ H1) in H2.
Qed.

Lemma longer_then_lex_NoDup l : StronglySorted longer_then_lex l → NoDup l.
Proof.
  induction 1 as [|x l Hl IH Hx]; constructor; [|done].
  intros Hin. rewrite Forall_forall in Hx.
  by destruct (longer_then_lex_asym x x); apply Hx.
Qed.

(** A list is fixed by its elements once it is sorted in that order. *)
Lemma longer_then_lex_unique l k :
  StronglySorted longer_then_lex l → StronglySorted longer_then_lex k →
  (∀ w, w ∈ l ↔ w ∈ k) → l = k.
Proof.
  intros Hl Hk Hin.
  assert (AntiSymm (=) longer_then_lex) as Hanti.
  { intros x y H1 H2. destruct (longer_then_lex_asym x y H1 H2). }
  apply (StronglySorted_unique longer_then_lex); [done | done |].
  apply NoDup_Permutation; auto using longer_then_lex_NoDup.
Qed.

(** The first scenario of the specification, evaluated. *)
Example scenario_A_result :
  solve_candidates (lit "aelnrst") (lit "e") scenario_A =
    inr {| valid_words := lit <$> ["allererste"; "entstellen"; "stresstest"; "rennen"];
           pangrams_7_exact := [];
           longest_words := lit <$> ["allererste"; "entstellen"; "stresstest"];
           max_len := 10 |}.
Proof. vm_compute. reflexivity. Qed.

(** C1: for a valid constraint pair and any list of candidates,
    [solve_candidates] returns a result whose [valid_words] holds exactly the
    candidates, stripped and lowercased, that are not empty, are a..z only,
    hold the mandatory letter and use allowed letters only; each of them
    once; longer words before shorter ones, and words of one length in
    increasing lexicographic order. *)
Theorem valid_words_spec allowed mandatory candidates :
  valid_constraints allowed mandatory →
  ∃ r, solve_candidates allowed mandatory candidates = inr r ∧
    (∀ w, w ∈ valid_words r ↔
            (∃ c, c ∈ candidates ∧ w = lower (strip c))
            ∧ puzzle_word allowed mandatory w) ∧
    NoDup (valid_words r) ∧
    StronglySorted longer_then_lex (valid_words r) ∧
    (∀ l, (∀ w, w ∈ l ↔
                  (∃ c, c ∈ candidates ∧ w = lower (strip c))
                  ∧ puzzle_word allowed mandatory w) →
          StronglySorted longer_then_lex l → valid_words r = l).
Proof.
  intros H. eexists. split; [by apply solve_candidates_valid|].
  cbv zeta. cbn [valid_words].
  destruct H as (_ & _ & _ & c & -> & _).
  assert (∀ w, w ∈ sorted key_lt len_key
                 (elements (list_to_set
                    (foldl (step [c] (list_to_set allowed) (Counter allowed))
                       ([], []) candidates).1 : gset str)) ↔
               (∃ x, x ∈ candidates ∧ w = lower (strip x))
               ∧ puzzle_word allowed [c] w) as Hin.
  { intros w. by rewrite elem_of_sorted_set, elem_of_valid. }
  pose proof (sorted_len_key _ (NoDup_elements (list_to_set
                 (foldl (step [c] (list_to_set allowed) (Counter allowed))
                    ([], []) candidates).1 : gset str))) as Hs.
  split; [exact Hin|]. split; [apply NoDup_sorted_set|]. split; [exact Hs|].
  intros l Hl Hsl. apply longer_then_lex_unique; [done | done |].
  intros w. by rewrite Hin, Hl.
Qed.

Lemma scenario_A_constraints : valid_constraints (lit "aelnrst") (lit "e").
Proof.
  repeat split.
  - by_compute.
  - by_compute.
  - exists "e"%char. split; [reflexivity|].
    by_compute.
Defined.

Lemma scenario_B_constraints : valid_constraints (lit "abcdefg") (lit "a").
Proof.
  repeat split.
  - by_compute.
  - by_compute.
  - exists "a"%char. split; [reflexivity|].
    by_compute.
Defined.

Lemma valid_words_spec_witness :
  ∃ r, solve_candidates (lit "aelnrst") (lit "e") scenario_A = inr r ∧
    (∀ w, w ∈ valid_words r ↔
            (∃ c, c ∈ scenario_A ∧ w = lower (strip c))
            ∧ puzzle_word (lit "aelnrst") (lit "e") w) ∧
    NoDup (valid_words r) ∧
    StronglySorted longer_then_lex (valid_words r) ∧
    (∀ l, (∀ w, w ∈ l ↔
                  (∃ c, c ∈ scenario_A ∧ w = lower (strip c))
                  ∧ puzzle_word (lit "aelnrst") (lit "e") w) →
          StronglySorted longer_then_lex l → valid_words r = l).
Proof.
  exact (valid_words_spec (lit "aelnrst") (lit "e") scenario_A scenario_A_constraints).
Defined.

(** C2: for a valid constraint pair, [pangrams_7_exact] holds exactly the
    valid words of length 7 in which every letter occurs as often as in
    [allowed], that is the valid words that are permutations of [allowed], in
    increasing lexicographic order; with allowed [abcdefg], mandatory [a] and
    the candidates [gfedcba], [aaaaaaa], [abcdefga] it is [gfedcba] alone. *)
Theorem pangrams_spec allowed mandatory candidates :
  valid_constraints allowed mandatory →
  ∃ r, solve_candidates allowed mandatory candidates = inr r ∧
    (∀ w, w ∈ pangrams_7_exact r ↔
            w ∈ valid_words r ∧ length w = 7%nat ∧ same_letters w allowed) ∧
    (∀ w, w ∈ pangrams_7_exact r ↔ w ∈ valid_words r ∧ w ≡ₚ allowed) ∧
    StronglySorted (λ x y, str_lt x y = true) (pangrams_7_exact r) ∧
    ∃ rB, solve_candidates (lit "abcdefg") (lit "a") scenario_B = inr rB ∧
          pangrams_7_exact rB = [lit "gfedcba"].
Proof.
  intros H. eexists. split; [by apply solve_candidates_valid|].
  cbv zeta. cbn [valid_words pangrams_7_exact].
  destruct H as (Hl & _ & _ & c & -> & _).
  assert (∀ w, w ∈ sorted str_lt id
                 (elements (list_to_set
                    (foldl (step [c] (list_to_set allowed) (Counter allowed))
                       ([], []) candidates).2 : gset str)) ↔
               w ∈ sorted key_lt len_key
                 (elements (list_to_set
                    (foldl (step [c] (list_to_set allowed) (Counter allowed))
                       ([], []) candidates).1 : gset str))
               ∧ length w = 7%nat ∧ same_letters w allowed) as Hin.
  { intros w. by rewrite !elem_of_sorted_set, elem_of_pangrams. }
  split; [exact Hin|]. split; [|split].
  - intros w. rewrite Hin, same_letters_perm. split; [naive_solver|].
    intros [? Hp]. split; [done|]. split; [|done].
    by rewrite (Permutation_length Hp).
  - apply sorted_lex, NoDup_elements.
  - eexists. split; [vm_compute; reflexivity | reflexivity].
Qed.

Lemma pangrams_spec_witness :
  ∃ r, solve_candidates (lit "abcdefg") (lit "a") scenario_B = inr r ∧
    (∀ w, w ∈ pangrams_7_exact r ↔
            w ∈ valid_words r ∧ length w = 7%nat ∧ same_letters w (lit "abcdefg")) ∧
    (∀ w, w ∈ pangrams_7_exact r ↔ w ∈ valid_words r ∧ w ≡ₚ lit "abcdefg") ∧
    StronglySorted (λ x y, str_lt x y = true) (pangrams_7_exact r) ∧
    ∃ rB, solve_candidates (lit "abcdefg") (lit "a") scenario_B = inr rB ∧
          pangrams_7_exact rB = [lit "gfedcba"].
Proof.
  exact (pangrams_spec (lit "abcdefg") (lit "a") scenario_B scenario_B_constraints).
Defined.

(** C4: for a valid constraint pair, [max_len] is the greatest length of a
    word of [valid_words], 0 when there is none, and [longest_words] is the
    list of the words of [valid_words] of that length, empty when there is
    none. *)
Theorem longest_spec allowed mandatory candidates :
  valid_constraints allowed mandatory →
  ∃ r, solve_candidates allowed mandatory candidates = inr r ∧
    max_len r = max_list_with length (valid_words r) ∧
    longest_words r = filter (λ w, length w = max_len r) (valid_words r) ∧
    (∀ w, w ∈ longest_words r ↔ w ∈ valid_words r ∧ length w = max_len r) ∧
    (valid_words r = [] → max_len r = 0%nat ∧ longest_words r = []).
Proof.
  intros H. eexists. split; [by apply solve_candidates_valid|].
  cbv zeta. cbn [valid_words longest_words max_len].
  pose proof (sorted_len_key
                (elements (list_to_set
                   (foldl (step mandatory (list_to_set allowed) (Counter allowed))
                      ([], []) candidates).1 : gset str))
                (NoDup_elements _)) as Hs.
  destruct (sorted key_lt len_key _) as [|x l] eqn:E.
  - split; [done|]. split; [done|]. split; [|done].
    intros w. rewrite filter_nil. split; [by intros ?%elem_of_nil|].
    by intros [?%elem_of_nil _].
  - split; [by rewrite longest_first|]. split; [done|]. split; [|done].
    intros w. rewrite list_elem_of_filter. naive_solver.
Qed.

Lemma longest_spec_witness :
  ∃ r, solve_candidates (lit "aelnrst") (lit "e") scenario_A = inr r ∧
    max_len r = max_list_with length (valid_words r) ∧
    longest_words r = filter (λ w, length w = max_len r) (valid_words r) ∧
    (∀ w, w ∈ longest_words r ↔ w ∈ valid_words r ∧ length w = max_len r) ∧
    (valid_words r = [] → max_len r = 0%nat ∧ longest_words r = []).
Proof.
  exact (longest_spec (lit "aelnrst") (lit "e") scenario_A scenario_A_constraints).
Defined.

(** C9: for a valid constraint pair and any list of candidate strings,
    [solve_candidates] returns a result and raises nothing; none of
    [valid_words], [pangrams_7_exact] and [longest_words] holds a word twice,
    the words of [pangrams_7_exact] and of [longest_words] are words of
    [valid_words], and every word of [longest_words] has length [max_len]. *)
Theorem result_well_formed allowed mandatory candidates :
  valid_constraints allowed mandatory →
  ∃ r, solve_candidates allowed mandatory candidates = inr r ∧
    NoDup (valid_words r) ∧ NoDup (pangrams_7_exact r) ∧ NoDup (longest_words r) ∧
    pangrams_7_exact r ⊆ valid_words r ∧
    longest_words r ⊆ valid_words r ∧
    Forall (λ w, length w = max_len r) (longest_words r).
Proof.
  intros H. eexists. split; [by apply solve_candidates_valid|].
  cbv zeta. cbn [valid_words pangrams_7_exact longest_words max_len].
  destruct H as (_ & _ & _ & c & -> & _).
  split; [apply NoDup_sorted_set|]. split; [apply NoDup_sorted_set|].
  split; [apply NoDup_filter, NoDup_sorted_set|].
  split; [|split].
  - intros w. rewrite !elem_of_sorted_set, elem_of_pangrams. naive_solver.
  - intros w. rewrite list_elem_of_filter. naive_solver.
  - apply Forall_forall. intros w. rewrite list_elem_of_filter. naive_solver.
Qed.

Lemma result_well_formed_witness :
  ∃ r, solve_candidates (lit "aelnrst") (lit "e") scenario_A = inr r ∧
    NoDup (valid_words r) ∧ NoDup (pangrams_7_exact r) ∧ NoDup (longest_words r) ∧
    pangrams_7_exact r ⊆ valid_words r ∧
    longest_words r ⊆ valid_words r ∧
    Forall (λ w, length w = max_len r) (longest_words r).
Proof.
  exact (result_well_formed (lit "aelnrst") (lit "e") scenario_A scenario_A_constraints).
Defined.

(** C3: when the constraint pair, lowercased and stripped, is malformed,
    [solve_candidates] raises a [ValueError] that is the same whatever the
    candidates are: no candidate word is looked at.  [solve] of [main.py]
    leaves with its error message in the same cases, before the prefilter
    and before the process is started. *)
Theorem malformed_constraints_raise allowed mandatory :
  malformed (norm allowed) (norm mandatory) →
  (∃ msg, ∀ candidates,
     solve_candidates allowed mandatory candidates = inl (ValueError msg)) ∧
  (∃ msg, ∀ base_words dict_base dic_dir min_len enable_reasonable_filter blacklist,
     Main.solve allowed mandatory base_words dict_base dic_dir min_len
       enable_reasonable_filter blacklist = Main.Ret (inl (Main.SystemExit msg))).
Proof.
  intros Hm. unfold solve_candidates, Main.solve. cbv zeta.
  change (strip (lower allowed)) with (norm allowed).
  change (strip (lower mandatory)) with (norm mandatory).
  change Main.ASCII_RE_fullmatch with ASCII_RE_fullmatch.
  destruct (negb (bool_decide (length (norm allowed) = 7%nat))
            || negb (bool_decide (size (list_to_set (norm allowed) : gset ascii) = 7%nat))
            || negb (ASCII_RE_fullmatch (norm allowed))) eqn:E1;
    [split; eexists; intros; reflexivity|].
  destruct (negb (bool_decide (length (norm mandatory) = 1%nat))
            || negb (ASCII_RE_fullmatch (norm mandatory))) eqn:E2;
    [split; eexists; intros; reflexivity|].
  destruct (negb (contains (norm mandatory) (norm allowed))) eqn:E3;
    [split; eexists; intros; reflexivity|].
  destruct (valid_constraints_not_malformed _ _ (checks_valid _ _ E1 E2 E3) Hm).
Qed.

Lemma malformed_constraints_raise_witness :
  (∃ msg, ∀ candidates,
     solve_candidates (lit "abcdefg") (lit "z") candidates = inl (ValueError msg)) ∧
  (∃ msg, ∀ base_words dict_base dic_dir min_len enable_reasonable_filter blacklist,
     Main.solve (lit "abcdefg") (lit "z") base_words dict_base dic_dir min_len
       enable_reasonable_filter blacklist = Main.Ret (inl (Main.SystemExit msg))).
Proof.
  apply (malformed_constraints_raise (lit "abcdefg") (lit "z")).
  right. right. right. right. intros [c [E H]].
  vm_compute in E. injection E as <-.
  assert ("z"%char ∉ norm (lit "abcdefg")) as N by by_compute.
  exact (N H).
Defined.

(** C10: [solve_candidates] lowercases and strips its two constraint
    arguments before it checks them: called on [allowed] and [mandatory] it
    returns what it returns on their lowercased and stripped forms, so that
    [AELNRST] with [ E ] is taken as [aelnrst] with [e], and is accepted.
    [solve] of [main.py] does the same. *)
Theorem constraints_normalised :
  (∀ allowed mandatory candidates,
     solve_candidates allowed mandatory candidates =
     solve_candidates (norm allowed) (norm mandatory) candidates) ∧
  (∀ candidates,
     solve_candidates (lit "AELNRST") (lit " E ") candidates =
     solve_candidates (lit "aelnrst") (lit "e") candidates
     ∧ ∃ r, solve_candidates (lit "AELNRST") (lit " E ") candidates = inr r) ∧
  (∀ allowed mandatory base_words dict_base dic_dir min_len enable blacklist,
     Main.solve allowed mandatory base_words dict_base dic_dir min_len enable blacklist =
     Main.solve (norm allowed) (norm mandatory) base_words dict_base dic_dir min_len
       enable blacklist).
Proof.
  assert (∀ allowed mandatory candidates,
     solve_candidates allowed mandatory candidates =
     solve_candidates (norm allowed) (norm mandatory) candidates) as Hn.
  { intros a m cands. unfold solve_candidates. cbv zeta.
    change (strip (lower (norm a))) with (norm (norm a)).
    change (strip (lower (norm m))) with (norm (norm m)).
    by rewrite !norm_idem. }
  split; [exact Hn|]. split.
  - intros cands. rewrite (Hn (lit "AELNRST") (lit " E ")).
    change (norm (lit "AELNRST")) with (lit "aelnrst").
    change (norm (lit " E ")) with (lit "e").
    split; [done|]. eexists. apply solve_candidates_valid, scenario_A_constraints.
  - intros a m ? ? ? ? ? ?. unfold Main.solve. cbv zeta.
    change (strip (lower (norm a))) with (norm (norm a)).
    change (strip (lower (norm m))) with (norm (norm m)).
    by rewrite !norm_idem.
Qed.

End solve_candidates.

(** ** [looks_reasonable] *)

Section main.
Import Py Main.

Lemma search_triple_iff w :
  search_triple w = true ↔ ∃ c, c ≠ LF ∧ triple c w.
Proof.
  induction w as [|a w IH]; [|destruct w as [|b [|c w]]].
  - simpl. split; [done|]. intros (c & _ & [|? ?] & v & E); discriminate E.
  - simpl. split; [done|]. intros (c & _ & [|? [|? ?]] & v & E); discriminate E.
  - simpl. split; [done|].
    intros (c & _ & [|? [|? [|? ?]]] & v & E); discriminate E.
  - change (search_triple (a :: b :: c :: w))
      with ((negb (ord a =? 10)%N && bool_decide (a = b) && bool_decide (b = c))
            || search_triple (b :: c :: w)).
    rewrite orb_true_iff, IH, !andb_true_iff, negb_true_iff, N.eqb_neq,
      !bool_decide_eq_true.
    split.
    + intros [[[Ha ->] ->]|(x & Hx & u & v & E)].
      * exists c. split; [|by exists [], w].
        intros ->. by apply Ha.
      * exists x. split; [done|]. exists (a :: u), v. by rewrite E.
    + intros (x & Hx & [|y u] & v & E).
      * injection E as -> -> -> ->. left. repeat split.
        intros Ha. apply Hx. by apply ord_inj.
      * injection E as -> E. right. exists x. split; [done|]. by exists u, v.
Qed.

Lemma doubled_iff w :
  (length w <=? 8)%nat && (length w mod 2 =? 0)%nat = true
  ∧ take (length w / 2) w = drop (length w / 2) w ↔ doubled w.
Proof.
  unfold doubled. rewrite andb_true_iff, Nat.leb_le, Nat.eqb_eq.
  split.
  - intros [[? ?] E]. repeat split; try done.
    etrans; [symmetry; apply (take_drop (length w / 2) w)|]. by rewrite E.
  - intros (? & ? & E). repeat split; try done.
    apply (app_inv_head (take (length w / 2) w)). by rewrite take_drop.
Qed.

Lemma looks_reasonable_iff w min_len :
  looks_reasonable w min_len = true ↔ reasonable w min_len.
Proof.
  unfold looks_reasonable, reasonable. rewrite <- search_triple_iff, <- doubled_iff.
  destruct (Z.ltb_spec (Z.of_nat (length w)) min_len) as [Hl|Hl].
  { split; [done | lia]. }
  destruct (search_triple w).
  { split; [done | naive_solver]. }
  destruct ((length w <=? 8)%nat && (length w mod 2 =? 0)%nat).
  - case_bool_decide as E; split; try done; [naive_solver|].
    intros _. repeat split; [done | done | naive_solver].
  - split; [|done]. intros _. repeat split; [done | done | naive_solver].
Qed.




(** ** The prefilter of [solve] *)

Lemma filter_cons_bool {A} (f : A → bool) x l :
  filter (λ w, f w = true) (x :: l) =
    if f x then x :: filter (λ w, f w = true) l else filter (λ w, f w = true) l.
Proof.
  rewrite filter_cons. destruct (f x); [by rewrite decide_True | by rewrite decide_False].
Qed.

Lemma prefilter_filter m aset min_len enable bl base :
  prefilter m aset min_len enable bl base =
    filter (λ w, passes m aset min_len enable bl w = true) base.
Proof.
  unfold prefilter.
  enough (∀ acc, foldl (λ candidates w,
             if bool_decide (w ∈ bl) then candidates
             else if negb (contains m w) then candidates
             else if bool_decide (list_to_set w ∖ aset ≠ (∅ : gset ascii))
                  then candidates
             else if enable && negb (looks_reasonable w min_len)
                  then candidates
             else if negb enable && (Z.of_nat (length w) <? min_len)%Z
                  then candidates
             else candidates ++ [w]) acc base =
          acc ++ filter (λ w, passes m aset min_len enable bl w = true) base)
    as H by apply (H []).
  induction base as [|w base IH]; intros acc.
  - simpl. by rewrite app_nil_r.
  - cbn [foldl]. rewrite IH, filter_cons_bool.
    set (rest := filter _ base). unfold passes.
    destruct (bool_decide (w ∈ bl)); [done|].
    destruct (contains m w); [|done].
    cbn [negb andb].
    destruct (decide (list_to_set w ∖ aset = (∅ : gset ascii))) as [Es|Ns].
    + rewrite (bool_decide_eq_false_2 _) by (intros N; by apply N).
      rewrite (bool_decide_eq_true_2 _ Es). cbn [andb].
      destruct (enable && negb (looks_reasonable w min_len)); [done|].
      destruct (negb enable && (Z.of_nat (length w) <? min_len)%Z); [done|].
      cbn [negb andb]. by rewrite <- app_assoc.
    + by rewrite (bool_decide_eq_true_2 _ Ns), (bool_decide_eq_false_2 _ Ns).
Qed.

Lemma passes_iff c a min_len enable bl w :
  passes [c] (list_to_set a) min_len enable bl w = true ↔
    survives a [c] min_len enable bl w.
Proof.
  unfold passes, survives.
  rewrite !andb_true_iff, !negb_true_iff, bool_decide_eq_false, contains_single,
    bool_decide_eq_true, letters_subset.
  assert ((∀ x, x ∈ [c] → x ∈ w) ↔ c ∈ w) as ->.
  { split; [intros H; apply H; by apply list_elem_of_singleton|].
    by intros ? ? ->%list_elem_of_singleton. }
  destruct enable; cbn [andb negb].
  - destruct (looks_reasonable w min_len); naive_solver.
  - destruct (Z.ltb_spec (Z.of_nat (length w)) min_len); naive_solver lia.
Qed.

End main.

(** ** The oracle, the prefilter and the word list *)

Section pipeline.
Import Py Main.

Lemma exec_bind {A B} hunspell (p : proc A) (f : A → proc B) :
  exec hunspell (bind p f) = exec hunspell (f (exec hunspell p)).
Proof. induction p as [a|argv d i k IH]; [done|]. simpl. apply IH. Qed.

Lemma foldl_accept words rl k :
  (k ≤ length words `min` length rl)%nat →
  ∃ acc : gset str,
    foldl (accept_step words rl) (inr ∅) (seq 0 k) = inr acc ∧
    ∀ w, w ∈ acc ↔
         ∃ i r, (i < k)%nat ∧ words !! i = Some w ∧ rl !! i = Some r ∧
                startswith (lit "*") r = true.
Proof.
  induction k as [|k IH]; intros Hk.
  - exists ∅. split; [done|]. intros w. split; [by intros ?%not_elem_of_empty|].
    intros (i & _ & ? & _). lia.
  - destruct IH as (acc & E & Hacc); [lia|].
    rewrite seq_S, foldl_app, E. change (0 + k)%nat with k.
    cbn [foldl]. unfold accept_step.
    destruct (lookup_lt_is_Some_2 rl k) as [r Hr]; [lia|].
    destruct (lookup_lt_is_Some_2 words k) as [x Hx]; [lia|].
    rewrite Hr, Hx. destruct (startswith (lit "*") r) eqn:Es.
    + eexists. split; [done|]. intros w.
      rewrite elem_of_union, elem_of_singleton, Hacc. split.
      * intros [->|(i & r' & ? & ?)]; [exists k, r; auto|].
        exists i, r'. split; [lia | done].
      * intros (i & r' & Hi & Hw & Hr' & Hs).
        destruct (decide (i = k)) as [->|]; [left; congruence|].
        right. exists i, r'. split; [lia | done].
    + exists acc. split; [done|]. intros w. rewrite Hacc. split.
      * intros (i & r' & ? & ?). exists i, r'. split; [lia | done].
      * intros (i & r' & Hi & Hw & Hr' & Hs).
        destruct (decide (i = k)) as [->|]; [congruence|].
        exists i, r'. split; [lia | done].
Qed.

Lemma parse_output_spec words stdout :
  ∃ acc : gset str,
    parse_output words stdout = inr acc ∧
    ∀ w, w ∈ acc ↔ accepted_at words (result_lines stdout) w.
Proof. unfold parse_output. cbv zeta. by apply foldl_accept. Qed.

Lemma exec_hunspell_filter_valid hunspell words dict_base dic_dir :
  ∃ acc : gset str,
    exec hunspell (hunspell_filter_valid words dict_base dic_dir) = inr acc.
Proof.
  destruct words as [|x words]; [by exists ∅|].
  cbn [hunspell_filter_valid exec].
  destruct (parse_output_spec (x :: words)
              (hunspell [lit "hunspell"; lit "-a"; lit "-d"; dict_base; lit "-i";
                         lit "UTF-8"] dic_dir
                        (join newline (x :: words) ++ newline))) as (acc & E & _).
  by exists acc.
Qed.

(** C7: with the standard output of the process taken as a string,
    [hunspell_filter_valid] returns the set of the words [words[i]] with [i]
    below the number of words and below the number of result lines and with
    result line [i] beginning with [*]; the result lines are, in order, the
    lines of the output that are not empty once stripped and do not begin
    with [@], stripped.  So with fewer result lines than words only the
    matching prefix counts, every accepted word is one of the words handed
    in, and on the empty list the empty set comes back and the process is
    not started. *)
Theorem hunspell_filter_valid_spec hunspell words dict_base dic_dir :
  let stdout :=
    hunspell [lit "hunspell"; lit "-a"; lit "-d"; dict_base; lit "-i"; lit "UTF-8"]
             dic_dir (join newline words ++ newline) in
  ∃ accepted : gset str,
    exec hunspell (hunspell_filter_valid words dict_base dic_dir) = inr accepted ∧
    (∀ w, w ∈ accepted ↔ accepted_at words (result_lines stdout) w) ∧
    result_lines stdout =
      strip <$> filter (λ line, strip line ≠ [] ∧ startswith (lit "@") line = false)
                       (splitlines stdout) ∧
    (∀ w, w ∈ accepted → w ∈ words) ∧
    (∀ i w, (length (result_lines stdout) ≤ i)%nat → words !! i = Some w →
            w ∈ accepted →
            ∃ j, (j < length (result_lines stdout))%nat ∧ words !! j = Some w) ∧
    (words = [] →
       accepted = ∅ ∧
       hunspell_filter_valid words dict_base dic_dir = Ret (inr ∅) ∧
       runs hunspell (hunspell_filter_valid words dict_base dic_dir) = 0%nat).
Proof.
  intros stdout. destruct words as [|x words].
  - exists ∅. split; [done|]. split.
    { intros w. split; [by intros ?%not_elem_of_empty|].
      intros (i & r & Hi & _). simpl in Hi. lia. }
    split; [done|]. split; [by intros w ?%not_elem_of_empty|].
    split; [by intros i w _ _ ?%not_elem_of_empty | done].
  - destruct (parse_output_spec (x :: words) stdout) as (acc & E & Hacc).
    exists acc. split; [exact E|]. split; [exact Hacc|]. split; [done|].
    split; [|split; [|done]].
    + intros w (i & r & _ & Hw & _)%Hacc. by eapply list_elem_of_lookup_2.
    + intros i w _ _ (j & r & Hj & Hw & _)%Hacc. exists j. split; [lia | done].
Qed.

Lemma hunspell_filter_valid_spec_witness :
  ∃ accepted : gset str,
    exec (λ _ _ _, lit "@(#) header" ++ [LF] ++ lit "*" ++ [LF; LF] ++ lit "& b 1 0: c")
         (hunspell_filter_valid [lit "a"; lit "b"; lit "c"] (lit "de_DE") []) = inr accepted ∧
    (∀ w, w ∈ accepted → w ∈ [lit "a"; lit "b"; lit "c"]).
Proof.
  destruct (hunspell_filter_valid_spec
              (λ _ _ _, lit "@(#) header" ++ [LF] ++ lit "*" ++ [LF; LF] ++ lit "& b 1 0: c")
              [lit "a"; lit "b"; lit "c"] (lit "de_DE") [])
    as (accepted & E & _ & _ & Hsub & _).
  exists accepted. split; [exact E | exact Hsub].
Defined.




(** C5: when the constraints are valid, [solve] goes on to its report, and a
    word is among the candidates of the prefilter exactly when it is one of
    the base words, is not in the blacklist, holds the mandatory letter, has
    all its letters among the allowed ones and, with the heuristic enabled,
    is taken by [looks_reasonable], without it, has at least [min_len]
    characters. *)
Theorem prefilter_spec hunspell allowed mandatory base_words dict_base dic_dir
    min_len enable_reasonable_filter blacklist :
  valid_constraints (norm allowed) (norm mandatory) →
  ∃ rep,
    exec hunspell (solve allowed mandatory base_words dict_base dic_dir min_len
                     enable_reasonable_filter blacklist) = inr rep ∧
    candidates rep =
      prefilter (norm mandatory) (list_to_set (norm allowed)) min_len
        enable_reasonable_filter blacklist base_words ∧
    ∀ w, w ∈ candidates rep ↔
         w ∈ base_words ∧
         survives (norm allowed) (norm mandatory) min_len
           enable_reasonable_filter blacklist w.
Proof.
  intros H. unfold solve. cbv zeta.
  change (strip (lower allowed)) with (norm allowed).
  change (strip (lower mandatory)) with (norm mandatory).
  change ASCII_RE_fullmatch with Solver.ASCII_RE_fullmatch.
  destruct (checks_pass _ _ H) as (-> & -> & ->).
  rewrite exec_bind.
  destruct (exec_hunspell_filter_valid hunspell
              (prefilter (norm mandatory) (list_to_set (norm allowed)) min_len
                 enable_reasonable_filter blacklist base_words)
              dict_base dic_dir) as [acc ->].
  eexists. split; [reflexivity|]. cbn [candidates]. split; [done|].
  destruct H as (_ & _ & _ & c & -> & _).
  intros w. rewrite prefilter_filter, list_elem_of_filter, passes_iff. naive_solver.
Qed.

Lemma prefilter_spec_witness :
  ∃ rep,
    exec (λ _ _ _, []) (solve (lit "aelnrst") (lit "e") scenario_A [] [] 4 true ∅)
      = inr rep ∧
    candidates rep =
      prefilter (norm (lit "e")) (list_to_set (norm (lit "aelnrst"))) 4 true ∅
        scenario_A ∧
    ∀ w, w ∈ candidates rep ↔
         w ∈ scenario_A ∧
         survives (norm (lit "aelnrst")) (norm (lit "e")) 4 true ∅ w.
Proof.
  apply (prefilter_spec (λ _ _ _, []) (lit "aelnrst") (lit "e") scenario_A [] [] 4
           true ∅).
  exact scenario_A_constraints.
Defined.

Lemma foldl_words (words : gset str) lines w :
  w ∈ foldl (λ (words : gset str) line,
               let w := lower (strip (split_first "/" line)) in
               if Solver.ASCII_RE_fullmatch w then {[ w ]} ∪ words else words)
            words lines ↔
    w ∈ words ∨ ∃ line, line ∈ lines ∧ w = entry line ∧ w ≠ [] ∧ all_az w.
Proof.
  revert words. induction lines as [|line lines IH]; intros words.
  - simpl. split; [auto|]. intros [?|(? & ?%elem_of_nil & _)]; done.
  - cbn [foldl]. rewrite IH. cbv zeta. fold (entry line).
    destruct (Solver.ASCII_RE_fullmatch (entry line)) eqn:E.
    + apply fullmatch_iff in E. rewrite elem_of_union, elem_of_singleton. split.
      * intros [[->|?]|(l & ? & ?)]; [right | by left | right].
        -- exists line. rewrite elem_of_cons. naive_solver.
        -- exists l. rewrite elem_of_cons. naive_solver.
      * intros [?|(l & [->|?]%elem_of_cons & ? & ?)]; [by left; right | |].
        -- left. by left.
        -- right. by exists l.
    + split.
      * intros [?|(l & ? & ?)]; [by left|]. right. exists l.
        rewrite elem_of_cons. naive_solver.
      * intros [?|(l & [->|?]%elem_of_cons & -> & Hw)]; [by left | |].
        -- apply fullmatch_iff in Hw. congruence.
        -- right. by exists l.
Qed.

(** C8: for any list of raw lines, [load_base_words] gives the entries of
    the lines (the part before the first [/], stripped, lowercased) that are
    one or more letters a..z, in strictly increasing lexicographic order, so
    each once: lines with one stem and different flags give one word, and a
    line whose entry holds a diacritic, a digit, a hyphen or any other
    character outside a..z gives none.  The function of [main.py] is the
    same. *)
Theorem load_base_words_spec lines :
  (∀ w, w ∈ Solver.load_base_words lines ↔
        ∃ line, line ∈ lines ∧ w = entry line ∧ w ≠ [] ∧ all_az w) ∧
  StronglySorted (λ x y, str_lt x y = true) (Solver.load_base_words lines) ∧
  NoDup (Solver.load_base_words lines) ∧
  (∀ line c, c ∈ entry line → is_az c = false →
             entry line ∉ Solver.load_base_words lines) ∧
  load_base_words lines = Solver.load_base_words lines ∧
  Solver.load_base_words test_lines = [lit "entstellen"; lit "stresstest"].
Proof.
  assert (∀ w, w ∈ Solver.load_base_words lines ↔
        ∃ line, line ∈ lines ∧ w = entry line ∧ w ≠ [] ∧ all_az w) as Hin.
  { intros w. unfold Solver.load_base_words. cbv zeta.
    rewrite sorted_elem_of, elem_of_elements, foldl_words.
    split; [intros [?%not_elem_of_empty|?]; done | auto]. }
  split; [exact Hin|]. split; [|split; [|split; [|split]]].
  - apply sorted_lex, NoDup_elements.
  - apply sorted_NoDup, NoDup_elements.
  - intros line c Hc Haz (l & _ & E & _ & Hall)%Hin.
    unfold all_az in Hall. rewrite Forall_forall in Hall.
    rewrite (Hall c Hc) in Haz. done.
  - reflexivity.
  - vm_compute. reflexivity.
Qed.

Lemma load_base_words_spec_witness :
  StronglySorted (λ x y, str_lt x y = true) (Solver.load_base_words test_lines) ∧
  load_base_words test_lines = Solver.load_base_words test_lines.
Proof.
  destruct (load_base_words_spec test_lines) as (_ & Hs & _ & _ & E & _).
  split; [exact Hs | exact E].
Defined.

End pipeline.

(** ** More about [solve_candidates] *)

Section solver_more.
Import Py Solver.

Lemma solve_candidates_result a m cands :
  valid_constraints a m →
  solve_candidates a m cands =
    inr (result_of (foldl (step m (list_to_set a) (Counter a)) ([], []) cands)).
Proof. intros H. by rewrite solve_candidates_valid. Qed.

Lemma solve_candidates_norm_args a m cands :
  solve_candidates a m cands = solve_candidates (norm a) (norm m) cands.
Proof.
  unfold solve_candidates. cbv zeta.
  change (strip (lower (norm a))) with (norm (norm a)).
  change (strip (lower (norm m))) with (norm (norm m)).
  by rewrite !norm_idem.
Qed.

Lemma solve_candidates_inr a m cands r :
  solve_candidates a m cands = inr r → valid_constraints (norm a) (norm m).
Proof.
  unfold solve_candidates. cbv zeta.
  change (strip (lower a)) with (norm a). change (strip (lower m)) with (norm m).
  destruct (negb (bool_decide (length (norm a) = 7%nat))
            || negb (bool_decide (size (list_to_set (norm a) : gset ascii) = 7%nat))
            || negb (ASCII_RE_fullmatch (norm a))) eqn:E1; [done|].
  destruct (negb (bool_decide (length (norm m) = 1%nat))
            || negb (ASCII_RE_fullmatch (norm m))) eqn:E2; [done|].
  destruct (negb (contains (norm m) (norm a))) eqn:E3; [done|].
  intros _. by apply checks_valid.
Qed.

Lemma solve_candidates_inl_any a m c1 c2 e :
  solve_candidates a m c1 = inl e → solve_candidates a m c2 = inl e.
Proof.
  unfold solve_candidates. cbv zeta.
  destruct (negb (bool_decide (length (strip (lower a)) = 7%nat))
            || negb (bool_decide (size (list_to_set (strip (lower a)) : gset ascii) = 7%nat))
            || negb (ASCII_RE_fullmatch (strip (lower a)))); [done|].
  destruct (negb (bool_decide (length (strip (lower m)) = 1%nat))
            || negb (ASCII_RE_fullmatch (strip (lower m)))); [done|].
  destruct (negb (contains (strip (lower m)) (strip (lower a)))); done.
Qed.

(** What [solve_candidates] returns, in terms of the loop. *)
Lemma solve_candidates_inr_result a m cands r :
  solve_candidates a m cands = inr r →
  valid_constraints (norm a) (norm m) ∧
  r = result_of (foldl (step (norm m) (list_to_set (norm a)) (Counter (norm a)))
                   ([], []) cands).
Proof.
  intros E. pose proof (solve_candidates_inr _ _ _ _ E) as V. split; [done|].
  rewrite solve_candidates_norm_args, (solve_candidates_result _ _ _ V) in E.
  congruence.
Qed.

Lemma result_of_ext st st' :
  (∀ w, w ∈ st.1 ↔ w ∈ st'.1) → (∀ w, w ∈ st.2 ↔ w ∈ st'.2) →
  result_of st = result_of st'.
Proof.
  intros H1 H2. unfold result_of.
  assert ((list_to_set st.1 : gset str) = list_to_set st'.1) as ->.
  { apply set_eq. intros w. by rewrite !elem_of_list_to_set. }
  assert ((list_to_set st.2 : gset str) = list_to_set st'.2) as ->.
  { apply set_eq. intros w. by rewrite !elem_of_list_to_set. }
  done.
Qed.

Lemma candidate_form_idem c : lower (strip (lower (strip c))) = lower (strip c).
Proof. by rewrite <- strip_lower, lower_idem, strip_lower, strip_idem. Qed.

Lemma puzzle_word_form a m w : puzzle_word a m w → lower (strip w) = w.
Proof. intros (_ & Haz & _). by rewrite strip_az, lower_az. Qed.

Lemma elem_of_loop_1 m aset ac cands w :
  w ∈ (foldl (step m aset ac) ([], []) cands).1 ↔
    w ∈ (λ c, lower (strip c)) <$> cands ∧ keeps m aset w = true.
Proof. rewrite foldl_step_1. simpl. rewrite list_elem_of_filter. naive_solver. Qed.

Lemma elem_of_loop_2 m aset ac cands w :
  w ∈ (foldl (step m aset ac) ([], []) cands).2 ↔
    w ∈ (foldl (step m aset ac) ([], []) cands).1
    ∧ length w = 7%nat ∧ Counter w = ac.
Proof.
  rewrite foldl_step_1, foldl_step_2. simpl. rewrite !list_elem_of_filter.
  naive_solver.
Qed.

(** X1: the result depends on the candidates only through the set of their
    stripped, lowercased forms: order, repetition, case and white space
    around the words do not count.  This holds for all arguments, also when
    an error is raised. *)
Theorem solve_candidates_same_words allowed mandatory c1 c2 :
  (∀ w, w ∈ (λ c, lower (strip c)) <$> c1 ↔ w ∈ (λ c, lower (strip c)) <$> c2) →
  solve_candidates allowed mandatory c1 = solve_candidates allowed mandatory c2.
Proof.
  intros H.
  destruct (solve_candidates allowed mandatory c1) as [e|r] eqn:E1.
  - symmetry. by eapply solve_candidates_inl_any.
  - destruct (solve_candidates_inr_result _ _ _ _ E1) as [V ->].
    rewrite solve_candidates_norm_args, (solve_candidates_result _ _ _ V).
    f_equal. apply result_of_ext.
    + intros w. by rewrite !elem_of_loop_1, H.
    + intros w. by rewrite !elem_of_loop_2, !elem_of_loop_1, H.
Qed.

Lemma solve_candidates_same_words_witness :
  solve_candidates (lit "aelnrst") (lit "e") [lit "ALLERERSTE"; lit " rennen "] =
  solve_candidates (lit "aelnrst") (lit "e") [lit "rennen"; lit "allererste"; lit "rennen"].
Proof.
  apply (solve_candidates_same_words (lit "aelnrst") (lit "e")).
  intros w.
  change ((λ c, lower (strip c)) <$> [lit "ALLERERSTE"; lit " rennen "])
    with [lit "allererste"; lit "rennen"].
  change ((λ c, lower (strip c)) <$> [lit "rennen"; lit "allererste"; lit "rennen"])
    with [lit "rennen"; lit "allererste"; lit "rennen"].
  rewrite !elem_of_cons. rewrite !elem_of_nil. tauto.
Defined.

Lemma keeps_form m aset w : keeps m aset w = true → lower (strip w) = w.
Proof.
  destruct w as [|c w]; [done|]. cbn [keeps]. rewrite !andb_true_iff.
  intros [[[_ Haz]%fullmatch_iff _] _]. by rewrite strip_az, lower_az.
Qed.

Lemma elem_of_loop_again m aset ac cands w :
  w ∈ (foldl (step m aset ac) ([], [])
         (valid_words (result_of (foldl (step m aset ac) ([], []) cands)))).1 ↔
  w ∈ (foldl (step m aset ac) ([], []) cands).1.
Proof.
  rewrite (elem_of_loop_1 _ _ _ (valid_words _)). cbn [result_of valid_words].
  rewrite list_elem_of_fmap. split.
  - intros [(c & -> & Hc) Hk]. rewrite elem_of_sorted_set in Hc.
    pose proof Hc as [_ Hkc]%elem_of_loop_1. by rewrite (keeps_form _ _ _ Hkc).
  - intros Hw. pose proof Hw as [_ Hk]%elem_of_loop_1. split; [|done].
    exists w. split; [by rewrite (keeps_form _ _ _ Hk) | by rewrite elem_of_sorted_set].
Qed.

(** X2: a result is a fixed point: [solve_candidates] run again on the
    [valid_words] it returned gives the very same result. *)
Theorem solve_candidates_again allowed mandatory candidates r :
  solve_candidates allowed mandatory candidates = inr r →
  solve_candidates allowed mandatory (valid_words r) = inr r.
Proof.
  intros E. destruct (solve_candidates_inr_result _ _ _ _ E) as [V ->].
  rewrite solve_candidates_norm_args, (solve_candidates_result _ _ _ V).
  f_equal. apply result_of_ext.
  - intros w. apply elem_of_loop_again.
  - intros w. by rewrite !elem_of_loop_2, elem_of_loop_again.
Qed.

Lemma solve_candidates_again_witness :
  ∃ r, solve_candidates (lit "aelnrst") (lit "e") scenario_A = inr r ∧
       solve_candidates (lit "aelnrst") (lit "e") (valid_words r) = inr r.
Proof.
  eexists. split; [vm_compute; reflexivity|].
  apply (solve_candidates_again (lit "aelnrst") (lit "e") scenario_A).
  vm_compute. reflexivity.
Defined.

Lemma max_list_with_ge {A} (f : A → nat) l x : x ∈ l → f x ≤ max_list_with f l.
Proof.
  induction l as [|y l IH]; [by intros ?%elem_of_nil|].
  rewrite elem_of_cons. simpl. intros [->|?%IH]; lia.
Qed.

Lemma max_list_with_le {A} (f : A → nat) l b :
  (∀ x, x ∈ l → f x ≤ b) → max_list_with f l ≤ b.
Proof.
  induction l as [|y l IH]; intros H; simpl; [lia|].
  assert (f y ≤ b) by (apply H; left).
  assert (max_list_with f l ≤ b) by (apply IH; intros x ?; apply H; by right).
  lia.
Qed.

Lemma result_of_max_len st :
  max_len (result_of st) = max_list_with length (valid_words (result_of st)).
Proof.
  cbn [result_of valid_words max_len].
  pose proof (sorted_len_key _ (NoDup_elements (list_to_set st.1 : gset str))) as Hs.
  destruct (sorted key_lt len_key _) as [|x l]; [done|]. by rewrite longest_first.
Qed.

(** X3: more candidates never take a word away: with the same constraints,
    if every candidate of one list is in the other, then the valid words and
    the pangrams of the first result are among those of the second, and
    [max_len] does not go down. *)
Theorem solve_candidates_mono allowed mandatory c1 c2 r1 r2 :
  c1 ⊆ c2 →
  solve_candidates allowed mandatory c1 = inr r1 →
  solve_candidates allowed mandatory c2 = inr r2 →
  valid_words r1 ⊆ valid_words r2 ∧
  pangrams_7_exact r1 ⊆ pangrams_7_exact r2 ∧
  max_len r1 ≤ max_len r2.
Proof.
  intros Hsub E1 E2.
  destruct (solve_candidates_inr_result _ _ _ _ E1) as [_ ->].
  destruct (solve_candidates_inr_result _ _ _ _ E2) as [_ ->].
  assert (valid_words (result_of (foldl (step (norm mandatory)
              (list_to_set (norm allowed)) (Counter (norm allowed))) ([], []) c1))
          ⊆ valid_words (result_of (foldl (step (norm mandatory)
              (list_to_set (norm allowed)) (Counter (norm allowed))) ([], []) c2)))
    as Hv.
  { intros w. cbn [result_of valid_words].
    rewrite !elem_of_sorted_set, !elem_of_loop_1, !list_elem_of_fmap.
    intros [(c & -> & Hc) Hk]. split; [|done]. exists c. split; [done|]. by apply Hsub. }
  split; [exact Hv|]. split.
  - intros w. cbn [result_of pangrams_7_exact].
    rewrite !elem_of_sorted_set, !elem_of_loop_2, !elem_of_loop_1, !list_elem_of_fmap.
    intros [[(c & -> & Hc) Hk] Hp]. split; [|done]. split; [|done].
    exists c. split; [done|]. by apply Hsub.
  - rewrite !result_of_max_len. apply max_list_with_le.
    intros w Hw. apply max_list_with_ge. by apply Hv.
Qed.

Lemma solve_candidates_mono_witness :
  ∃ r1 r2,
    solve_candidates (lit "aelnrst") (lit "e") [lit "rennen"] = inr r1 ∧
    solve_candidates (lit "aelnrst") (lit "e") scenario_A = inr r2 ∧
    valid_words r1 ⊆ valid_words r2 ∧
    pangrams_7_exact r1 ⊆ pangrams_7_exact r2 ∧
    max_len r1 ≤ max_len r2.
Proof.
  eexists _, _. split; [vm_compute; reflexivity|]. split; [vm_compute; reflexivity|].
  apply (solve_candidates_mono (lit "aelnrst") (lit "e") [lit "rennen"] scenario_A).
  - intros w. unfold scenario_A. rewrite !elem_of_cons, !elem_of_nil. tauto.
  - vm_compute. reflexivity.
  - vm_compute. reflexivity.
Defined.

Lemma allowed_check a :
  negb (bool_decide (length a = 7%nat))
  || negb (bool_decide (size (list_to_set a : gset ascii) = 7%nat))
  || negb (ASCII_RE_fullmatch a) = false ↔ allowed_ok a.
Proof.
  unfold allowed_ok.
  rewrite !orb_false_iff, !negb_false_iff, !bool_decide_eq_true, fullmatch_iff.
  split.
  - intros [[Hl Hs] [_ Haz]]. repeat split; [done | | done].
    apply size_list_to_set_NoDup. congruence.
  - intros (Hl & Hd & Haz). apply size_list_to_set_NoDup in Hd.
    repeat split; [done | congruence | by destruct a | done].
Qed.

Lemma mandatory_check m :
  negb (bool_decide (length m = 1%nat)) || negb (ASCII_RE_fullmatch m) = false ↔
  ∃ c, m = [c] ∧ is_az c = true.
Proof.
  rewrite !orb_false_iff, !negb_false_iff, !bool_decide_eq_true, fullmatch_iff.
  split.
  - intros [Hl [_ Haz]]. destruct m as [|c [|? ?]]; try done.
    exists c. split; [done|]. by apply Forall_cons in Haz as [? _].
  - intros (c & -> & Hc). repeat split; [done|]. by constructor.
Qed.

(** X4: the three errors of [solve_candidates] and when each is raised.  The
    checks come in a fixed order, so a message names the first thing that is
    wrong: [allowed] when it is not seven distinct letters a..z, whatever
    [mandatory] is; then [mandatory] when it is not one letter a..z; then the
    membership.  A result comes back exactly for the valid pairs. *)
Theorem solve_candidates_errors allowed mandatory candidates :
  (solve_candidates allowed mandatory candidates = inl (ValueError msg_allowed) ↔
     ¬ allowed_ok (norm allowed)) ∧
  (solve_candidates allowed mandatory candidates = inl (ValueError msg_mandatory) ↔
     allowed_ok (norm allowed) ∧ ¬ ∃ c, norm mandatory = [c] ∧ is_az c = true) ∧
  (solve_candidates allowed mandatory candidates = inl (ValueError msg_member) ↔
     allowed_ok (norm allowed) ∧
     ∃ c, norm mandatory = [c] ∧ is_az c = true ∧ c ∉ norm allowed) ∧
  ((∃ r, solve_candidates allowed mandatory candidates = inr r) ↔
     valid_constraints (norm allowed) (norm mandatory)).
Proof.
  pose proof (allowed_check (norm allowed)) as H1.
  pose proof (mandatory_check (norm mandatory)) as H2.
  unfold solve_candidates. cbv zeta.
  change (strip (lower allowed)) with (norm allowed).
  change (strip (lower mandatory)) with (norm mandatory).
  unfold msg_allowed, msg_mandatory, msg_member.
  destruct (negb (bool_decide (length (norm allowed) = 7%nat))
            || negb (bool_decide (size (list_to_set (norm allowed) : gset ascii) = 7%nat))
            || negb (ASCII_RE_fullmatch (norm allowed))).
  { assert (¬ allowed_ok (norm allowed)) as N by (rewrite <- H1; done).
    split; [split; [by intros _ | done]|].
    split; [split; [intros H; discriminate H | by intros [? _]]|].
    split; [split; [intros H; discriminate H | by intros [? _]]|].
    split; [intros [r H]; discriminate H|].
    intros (? & ? & ? & _). by destruct N. }
  assert (allowed_ok (norm allowed)) as Ha by (by apply H1).
  destruct (negb (bool_decide (length (norm mandatory) = 1%nat))
            || negb (ASCII_RE_fullmatch (norm mandatory))).
  { assert (¬ ∃ c, norm mandatory = [c] ∧ is_az c = true) as N by (rewrite <- H2; done).
    split; [split; [intros H; discriminate H | done]|].
    split; [split; [by intros _ | done]|].
    split; [split; [intros H; discriminate H|]|].
    { intros [_ (c & ? & ? & _)]. destruct N. by exists c. }
    split; [intros [r H]; discriminate H|].
    intros (_ & _ & Haz & c & Hm & Hc). destruct N. exists c. split; [done|].
    unfold all_az in Haz. rewrite Forall_forall in Haz. by apply Haz. }
  assert (∃ c, norm mandatory = [c] ∧ is_az c = true) as (c & Hm & Hc) by (by apply H2).
  rewrite Hm. destruct (contains [c] (norm allowed)) eqn:E3; cbn [negb].
  - apply contains_single in E3.
    split; [split; [intros H; discriminate H | done]|].
    split; [split; [intros H; discriminate H|]|].
    { intros [_ N]. destruct N. by exists c. }
    split; [split; [intros H; discriminate H|]|].
    { intros [_ (d & [= <-] & _ & N)]. done. }
    split; [intros _ | intros _; by eexists].
    destruct Ha as (? & ? & ?). repeat split; try done. by exists c.
  - assert (c ∉ norm allowed) as N.
    { intros Hin%contains_single. congruence. }
    split; [split; [intros H; discriminate H | done]|].
    split; [split; [intros H; discriminate H|]|].
    { intros [_ N']. destruct N'. by exists c. }
    split; [split; [intros _ | done]|].
    { split; [done|]. by exists c. }
    split; [intros [r H]; discriminate H|].
    intros (_ & _ & _ & d & [= <-] & Hd). done.
Qed.

Lemma filter_none {A} (P : A → Prop) `{∀ x, Decision (P x)} l :
  Forall (λ x, ¬ P x) l → filter P l = [].
Proof.
  induction 1 as [|x l Hx _ IH]; [done|].
  by rewrite filter_cons, decide_False.
Qed.

Lemma longest_block l L :
  StronglySorted longer_then_lex l → (∀ w, w ∈ l → length w ≤ L) →
  ∃ rest, l = filter (λ w, length w = L) l ++ rest
          ∧ Forall (λ w, length w < L) rest.
Proof.
  induction 1 as [|y l Hl IH Hy]; intros Hb.
  - exists []. by split.
  - rewrite filter_cons. destruct (decide (length y = L)) as [E|N].
    + destruct IH as (rest & E' & Hr); [intros w ?; apply Hb; by right|].
      exists rest. split; [|done]. rewrite <- app_comm_cons. f_equal. exact E'.
    + assert (length y < L) by (specialize (Hb y ltac:(left)); lia).
      assert (Forall (λ w, length w < L) l) as Hall.
      { eapply Forall_impl; [exact Hy|]. unfold longer_then_lex. intros w. simpl. lia. }
      exists (y :: l). split; [|by constructor].
      rewrite filter_none; [done|].
      eapply Forall_impl; [exact Hall|]. simpl. lia.
Qed.

(** X5: [longest_words] is the head of [valid_words]: the list [valid_words]
    is [longest_words] followed by words that are all shorter than
    [max_len], and [longest_words] itself is in increasing lexicographic
    order. *)
Theorem longest_words_first allowed mandatory candidates r :
  solve_candidates allowed mandatory candidates = inr r →
  ∃ rest, valid_words r = longest_words r ++ rest ∧
          Forall (λ w, length w < max_len r) rest ∧
          StronglySorted (λ x y, str_lt x y = true) (longest_words r).
Proof.
  intros E. destruct (solve_candidates_inr_result _ _ _ _ E) as [_ ->].
  pose proof (result_of_max_len
                (foldl (step (norm mandatory) (list_to_set (norm allowed))
                          (Counter (norm allowed))) ([], []) candidates)) as Hmax.
  cbn [result_of valid_words longest_words max_len] in *.
  pose proof (sorted_len_key _ (NoDup_elements (list_to_set
      (foldl (step (norm mandatory) (list_to_set (norm allowed))
                (Counter (norm allowed))) ([], []) candidates).1 : gset str))) as Hs.
  set (valid := sorted key_lt len_key _) in *.
  set (L := match valid with w :: _ => length w | [] => 0 end) in *.
  destruct (longest_block valid L Hs) as (rest & Hv & Hr).
  { intros w Hw. rewrite Hmax. by apply max_list_with_ge. }
  exists rest. split; [exact Hv|]. split; [exact Hr|].
  clearbody valid L. clear Hv Hmax.
  induction Hs as [|y l Hl IH Hy]; [constructor|].
  rewrite filter_cons. destruct (decide (length y = L)) as [Ey|]; [|by apply IH].
  constructor; [by apply IH|]. apply Forall_forall. intros w [Ew Hw]%list_elem_of_filter.
  rewrite Forall_forall in Hy. destruct (Hy w Hw) as [?|[_ ?]]; [lia | done].
Qed.

Lemma longest_words_first_witness :
  ∃ r rest, solve_candidates (lit "aelnrst") (lit "e") scenario_A = inr r ∧
            valid_words r = longest_words r ++ rest ∧
            Forall (λ w, length w < max_len r) rest ∧
            StronglySorted (λ x y, str_lt x y = true) (longest_words r).
Proof.
  eexists.
  destruct (longest_words_first (lit "aelnrst") (lit "e") scenario_A _ scenario_A_result)
    as (rest & H).
  exists rest. split; [exact scenario_A_result | exact H].
Defined.

End solver_more.

(** ** More about [load_base_words] *)

Section loader_more.
Import Py Solver.

Local Ltac each_char c := destruct c as [[] [] [] [] [] [] [] []].

Lemma load_base_words_elem lines w :
  w ∈ load_base_words lines ↔
    ∃ line, line ∈ lines ∧ w = entry line ∧ w ≠ [] ∧ all_az w.
Proof.
  unfold load_base_words. cbv zeta.
  rewrite sorted_elem_of, elem_of_elements, foldl_words.
  split; [intros [?%not_elem_of_empty|?]; done | auto].
Qed.

Lemma load_base_words_ext l1 l2 :
  (∀ w, w ∈ load_base_words l1 ↔ w ∈ load_base_words l2) →
  load_base_words l1 = load_base_words l2.
Proof.
  intros H.
  assert (AntiSymm (=) (λ x y, str_lt x y = true)) as Hanti.
  { intros x y H1 H2.
    by rewrite (lt_asym str_lt str_lt_irrefl str_lt_trans _ _ H1) in H2. }
  apply (StronglySorted_unique (λ x y, str_lt x y = true)).
  - apply sorted_lex, NoDup_elements.
  - apply sorted_lex, NoDup_elements.
  - apply NoDup_Permutation; [| |done]; apply sorted_NoDup, NoDup_elements.
Qed.

Lemma split_first_absent sep s : sep ∉ s → split_first sep s = s.
Proof.
  induction s as [|c s IH]; [done|].
  rewrite not_elem_of_cons. intros [N Hs]. simpl.
  rewrite bool_decide_eq_false_2 by congruence. by rewrite IH.
Qed.

Lemma entry_word w : w ≠ [] → all_az w → entry w = w.
Proof.
  intros _ Haz. unfold entry. rewrite split_first_absent.
  - by rewrite strip_az, lower_az.
  - intros Hin. unfold all_az in Haz. rewrite Forall_forall in Haz.
    by specialize (Haz _ Hin).
Qed.

(** X6: the word list depends on the lines only through the set of their
    entries (the part before the first [/], stripped and lowercased): the
    order of the lines, repeated lines, flags, case and surrounding white
    space do not count. *)
Theorem load_base_words_same_entries l1 l2 :
  (∀ w, w ∈ entry <$> l1 ↔ w ∈ entry <$> l2) →
  load_base_words l1 = load_base_words l2.
Proof.
  intros H. apply load_base_words_ext. intros w.
  rewrite !load_base_words_elem. split.
  - intros (line & Hl & -> & Hw).
    assert (entry line ∈ entry <$> l2) as (line' & E & Hl')%list_elem_of_fmap.
    { apply H, list_elem_of_fmap. by exists line. }
    exists line'. by rewrite <- E.
  - intros (line & Hl & -> & Hw).
    assert (entry line ∈ entry <$> l1) as (line' & E & Hl')%list_elem_of_fmap.
    { apply H, list_elem_of_fmap. by exists line. }
    exists line'. by rewrite <- E.
Qed.

Lemma load_base_words_same_entries_witness :
  load_base_words [lit "rennen/A"; lit " Rennen"; lit "allererste/B"] =
  load_base_words [lit "allererste"; lit "rennen"].
Proof.
  apply load_base_words_same_entries. intros w.
  change (entry <$> [lit "rennen/A"; lit " Rennen"; lit "allererste/B"])
    with [lit "rennen"; lit "rennen"; lit "allererste"].
  change (entry <$> [lit "allererste"; lit "rennen"])
    with [lit "allererste"; lit "rennen"].
  rewrite !elem_of_cons, !elem_of_nil. tauto.
Defined.

(** X7: a loaded word list is a fixed point of the loader: its words, taken
    as lines, load to the same list. *)
Theorem load_base_words_again lines :
  load_base_words (load_base_words lines) = load_base_words lines.
Proof.
  apply load_base_words_ext. intros w.
  rewrite (load_base_words_elem (load_base_words lines)). split.
  - intros (line & Hl & -> & Hw).
    pose proof Hl as (l & _ & _ & Hne & Haz)%load_base_words_elem.
    by rewrite entry_word.
  - intros Hw. pose proof Hw as (l & _ & _ & Hne & Haz)%load_base_words_elem.
    exists w. by rewrite entry_word.
Qed.

Lemma elem_of_lstrip c s : c ∈ s → isspace c = true ∨ c ∈ lstrip s.
Proof.
  induction s as [|d s IH]; [by intros ?%elem_of_nil|].
  rewrite elem_of_cons. simpl. destruct (isspace d) eqn:E.
  - intros [->|?]; auto.
  - rewrite elem_of_cons. auto.
Qed.

Lemma elem_of_rev {A} (x : A) l : x ∈ rev l ↔ x ∈ l.
Proof. rewrite !list_elem_of_In. symmetry. apply in_rev. Qed.

Lemma elem_of_strip c s : c ∈ s → isspace c = true ∨ c ∈ strip s.
Proof.
  intros [?|H]%elem_of_lstrip; [by left|].
  unfold strip, rstrip. rewrite <- elem_of_rev in H.
  apply elem_of_lstrip in H as [?|H]; [by left|]. right. by rewrite elem_of_rev.
Qed.

Lemma digit_not_letter c : isdigit_char c = true → is_az (lower_char c) = false.
Proof. each_char c; vm_compute; congruence. Qed.

Lemma digit_not_slash c :
  isspace c = true ∨ isdigit_char c = true → c ≠ "/"%char.
Proof. intros H ->. vm_compute in H. by destruct H. Qed.

(** The count line is not a word. *)
Lemma count_line_no_word first :
  isdigit (strip first) = true → ASCII_RE_fullmatch (entry first) = false.
Proof.
  intros Hd. unfold isdigit in Hd.
  destruct (strip first) as [|d t] eqn:E; [done|].
  apply forallb_Forall in Hd. rewrite Forall_forall in Hd.
  unfold entry. rewrite split_first_absent.
  - rewrite E. apply not_true_is_false. intros [_ Haz]%fullmatch_iff.
    apply Forall_cons in Haz as [Haz _].
    rewrite digit_not_letter in Haz; [done|]. apply Hd. left.
  - intros Hin. apply (digit_not_slash "/"); [|done].
    apply elem_of_strip in Hin as [?|Hin]; [by left|]. right. apply Hd. by rewrite <- E.
Qed.

Lemma load_base_words_skip first rest :
  ASCII_RE_fullmatch (entry first) = false →
  load_base_words (first :: rest) = load_base_words rest.
Proof.
  intros E. unfold load_base_words. cbv zeta. cbn [foldl].
  fold (entry first). by rewrite E.
Qed.

(** X8: leaving the count line out changes nothing: the words loaded from a
    decoded file, where a first line that is a number is skipped, are the
    words loaded from all the lines of the same text, as on the path that
    falls back to replacing undecodable bytes and skips nothing. *)
Theorem count_line_skip_is_neutral text :
  load_base_words_decoded text = load_base_words_replaced text.
Proof.
  unfold load_base_words_decoded, load_base_words_replaced, decoded_lines.
  cbv zeta. destruct (readlines text) as [|first rest].
  - change (strip []) with (@nil ascii). cbn [isdigit].
    by apply load_base_words_skip.
  - destruct (isdigit (strip first)) eqn:E; [|done].
    symmetry. by apply load_base_words_skip, count_line_no_word.
Qed.

(** X24: the loader and the solver together: for a valid constraint pair,
    [solve_candidates] run on the loaded word list returns as [valid_words]
    exactly the entries of the lines that are words of the puzzle. *)
Theorem solve_over_dictionary allowed mandatory lines :
  valid_constraints allowed mandatory →
  ∃ r, solve_candidates allowed mandatory (load_base_words lines) = inr r ∧
       ∀ w, w ∈ valid_words r ↔
            (∃ line, line ∈ lines ∧ w = entry line) ∧ puzzle_word allowed mandatory w.
Proof.
  intros V. eexists. split; [by apply solve_candidates_valid|].
  cbv zeta. cbn [valid_words]. destruct V as (_ & _ & _ & c & -> & _).
  intros w. rewrite elem_of_sorted_set, elem_of_valid. split.
  - intros [(x & Hx & ->) Hw]. split; [|done].
    apply load_base_words_elem in Hx as (line & Hl & -> & Hne & Haz).
    exists line. split; [done|]. by rewrite strip_az, lower_az.
  - intros [(line & Hl & ->) Hw]. split; [|done].
    pose proof Hw as (Hne & Haz & _).
    exists (entry line). split; [|by rewrite strip_az, lower_az].
    apply load_base_words_elem. by exists line.
Qed.

Lemma solve_over_dictionary_witness :
  ∃ r, solve_candidates (lit "aelnrst") (lit "e") (load_base_words test_lines) = inr r ∧
       ∀ w, w ∈ valid_words r ↔
            (∃ line, line ∈ test_lines ∧ w = entry line)
            ∧ puzzle_word (lit "aelnrst") (lit "e") w.
Proof.
  exact (solve_over_dictionary (lit "aelnrst") (lit "e") test_lines scenario_A_constraints).
Defined.

End loader_more.

(** ** More about the pipeline of [main.py] *)

Section pipeline_more.
Import Py Main.

Lemma runs_bind {A B} hunspell (p : proc A) (f : A → proc B) :
  runs hunspell (bind p f) = (runs hunspell p + runs hunspell (f (exec hunspell p)))%nat.
Proof. induction p as [a|argv d i k IH]; [done|]. simpl. by rewrite IH. Qed.

Lemma exec_hunspell_subset hunspell words dict_base dic_dir acc :
  exec hunspell (hunspell_filter_valid words dict_base dic_dir) = inr acc →
  ∀ w, w ∈ acc → w ∈ words.
Proof.
  destruct words as [|x words].
  - intros [= <-] w. by intros ?%not_elem_of_empty.
  - cbn [hunspell_filter_valid exec]. intros E w Hw.
    destruct (parse_output_spec (x :: words)
                (hunspell [lit "hunspell"; lit "-a"; lit "-d"; dict_base; lit "-i";
                           lit "UTF-8"] dic_dir
                          (join newline (x :: words) ++ newline))) as (acc' & E' & Hacc).
    rewrite E' in E. injection E as <-.
    apply Hacc in Hw as (i & r & _ & Hi & _). by eapply list_elem_of_lookup_2.
Qed.

Lemma solve_inr_valid hunspell allowed mandatory base_words dict_base dic_dir
    min_len enable blacklist rep :
  exec hunspell (solve allowed mandatory base_words dict_base dic_dir min_len
                   enable blacklist) = inr rep →
  valid_constraints (norm allowed) (norm mandatory).
Proof.
  unfold solve. cbv zeta.
  change (strip (lower allowed)) with (norm allowed).
  change (strip (lower mandatory)) with (norm mandatory).
  change ASCII_RE_fullmatch with Solver.ASCII_RE_fullmatch.
  destruct (negb (bool_decide (length (norm allowed) = 7%nat))
            || negb (bool_decide (size (list_to_set (norm allowed) : gset ascii) = 7%nat))
            || negb (Solver.ASCII_RE_fullmatch (norm allowed))) eqn:E1; [done|].
  destruct (negb (bool_decide (length (norm mandatory) = 1%nat))
            || negb (Solver.ASCII_RE_fullmatch (norm mandatory))) eqn:E2; [done|].
  destruct (negb (contains (norm mandatory) (norm allowed))) eqn:E3; [done|].
  intros _. by apply checks_valid.
Qed.

Lemma candidate_keeps a c min_len enable bl base w :
  all_az a →
  w ∈ prefilter [c] (list_to_set a) min_len enable bl base →
  keeps [c] (list_to_set a) w = true.
Proof.
  intros Haz. rewrite prefilter_filter, list_elem_of_filter, passes_iff, keeps_iff.
  intros [(_ & Hm & Hsub & _) _]. unfold puzzle_word. split; [|split; [|done]].
  - intros ->. specialize (Hm c). rewrite list_elem_of_singleton in Hm.
    by apply elem_of_nil in Hm.
  - unfold all_az in *. rewrite Forall_forall in Haz |- *. auto.
Qed.

Lemma solve_report_exists hunspell allowed mandatory base_words dict_base dic_dir
    min_len enable blacklist :
  valid_constraints (norm allowed) (norm mandatory) →
  ∃ rep, exec hunspell (solve allowed mandatory base_words dict_base dic_dir min_len
                          enable blacklist) = inr rep.
Proof.
  intros V. unfold solve. cbv zeta.
  change (strip (lower allowed)) with (norm allowed).
  change (strip (lower mandatory)) with (norm mandatory).
  change ASCII_RE_fullmatch with Solver.ASCII_RE_fullmatch.
  destruct (checks_pass _ _ V) as (-> & -> & ->).
  rewrite exec_bind.
  destruct (exec_hunspell_filter_valid hunspell
              (prefilter (norm mandatory) (list_to_set (norm allowed)) min_len
                 enable blacklist base_words) dict_base dic_dir) as [acc ->].
  by eexists.
Qed.

(** X9: [solve] and [solve_candidates] agree: when [solve] gets to its
    report, the valid words, the pangrams, the longest words and the preview
    it prints are those [solve_candidates] returns for the same constraints
    on the words the process accepted. *)
Theorem solve_agrees hunspell allowed mandatory base_words dict_base dic_dir
    min_len enable_reasonable_filter blacklist rep :
  exec hunspell (solve allowed mandatory base_words dict_base dic_dir min_len
                   enable_reasonable_filter blacklist) = inr rep →
  ∃ accepted r,
    exec hunspell (hunspell_filter_valid (candidates rep) dict_base dic_dir)
      = inr accepted ∧
    Solver.solve_candidates allowed mandatory (elements accepted) = inr r ∧
    valid rep = Solver.valid_words r ∧
    pangrams rep = Solver.pangrams_7_exact r ∧
    longest rep = match Solver.valid_words r with
                  | [] => None
                  | _ :: _ => Some (Solver.max_len r, Solver.longest_words r)
                  end ∧
    top_30 rep = take 30 (Solver.valid_words r).
Proof.
  intros E. pose proof (solve_inr_valid _ _ _ _ _ _ _ _ _ _ E) as V.
  revert E. unfold solve. cbv zeta.
  change (strip (lower allowed)) with (norm allowed).
  change (strip (lower mandatory)) with (norm mandatory).
  change ASCII_RE_fullmatch with Solver.ASCII_RE_fullmatch.
  destruct (checks_pass _ _ V) as (-> & -> & ->).
  rewrite exec_bind.
  set (cands := prefilter (norm mandatory) (list_to_set (norm allowed)) min_len
                  enable_reasonable_filter blacklist base_words).
  destruct (exec_hunspell_filter_valid hunspell cands dict_base dic_dir) as [acc Eacc].
  rewrite Eacc. cbn [exec]. intros [= <-]. cbn [candidates valid pangrams longest top_30].
  exists acc. eexists. split; [exact Eacc|].
  split; [rewrite solve_candidates_norm_args; by apply solve_candidates_result|].
  pose proof (exec_hunspell_subset _ _ _ _ _ Eacc) as Hsub.
  destruct V as (_ & _ & Haz & c & Hm & _).
  assert (∀ w, w ∈ (foldl (Solver.step (norm mandatory) (list_to_set (norm allowed))
                       (Counter (norm allowed))) ([], []) (elements acc)).1 ↔
               w ∈ filter (λ w, w ∈ acc) cands) as H1.
  { intros w. rewrite elem_of_loop_1, list_elem_of_fmap, list_elem_of_filter. split.
    - intros [(x & -> & Hx%elem_of_elements) Hk].
      assert (keeps (norm mandatory) (list_to_set (norm allowed)) x = true) as Hkx.
      { rewrite Hm. eapply candidate_keeps; [done|]. rewrite <- Hm. by apply Hsub. }
      rewrite (keeps_form _ _ _ Hkx). auto.
    - intros [Hw Hc].
      assert (keeps (norm mandatory) (list_to_set (norm allowed)) w = true) as Hk.
      { rewrite Hm. eapply candidate_keeps; [done|]. rewrite <- Hm. exact Hc. }
      split; [|done]. exists w. rewrite (keeps_form _ _ _ Hk).
      by rewrite elem_of_elements. }
  assert ((list_to_set (filter (λ w, w ∈ acc) cands) : gset str) =
          list_to_set (foldl (Solver.step (norm mandatory) (list_to_set (norm allowed))
                       (Counter (norm allowed))) ([], []) (elements acc)).1) as ->.
  { apply set_eq. intros w. by rewrite !elem_of_list_to_set, H1. }
  cbn [result_of Solver.valid_words Solver.pangrams_7_exact Solver.longest_words
         Solver.max_len].
  set (st := foldl _ _ (elements acc)) in *.
  set (vw := sorted Solver.key_lt Solver.len_key (elements (list_to_set st.1))).
  split; [done|]. split; [|split; [by destruct vw | done]].
  assert ((list_to_set (filter (λ w, length w = 7%nat ∧ Counter w = Counter (norm allowed)) vw)
            : gset str) = list_to_set st.2) as ->; [|done].
  apply set_eq. intros w.
  rewrite !elem_of_list_to_set, list_elem_of_filter. unfold vw, st.
  rewrite elem_of_sorted_set, elem_of_loop_2. tauto.
Qed.

Lemma solve_agrees_witness :
  ∃ rep accepted r,
    exec (λ _ _ _, lit "*") (solve (lit "aelnrst") (lit "e") scenario_A [] [] 4 true ∅)
      = inr rep ∧
    exec (λ _ _ _, lit "*") (hunspell_filter_valid (candidates rep) [] [])
      = inr accepted ∧
    Solver.solve_candidates (lit "aelnrst") (lit "e") (elements accepted) = inr r ∧
    valid rep = Solver.valid_words r ∧
    pangrams rep = Solver.pangrams_7_exact r.
Proof.
  destruct (solve_report_exists (λ _ _ _, lit "*") (lit "aelnrst") (lit "e") scenario_A
              [] [] 4 true ∅ scenario_A_constraints) as [rep E].
  destruct (solve_agrees (λ _ _ _, lit "*") (lit "aelnrst") (lit "e") scenario_A
              [] [] 4 true ∅ rep E)
    as (accepted & r & H1 & H2 & H3 & H4 & _).
  exists rep, accepted, r. auto.
Defined.

Lemma passes_min_len m aset min_len enable bl w :
  passes m aset min_len enable bl w = true → (min_len ≤ Z.of_nat (length w))%Z.
Proof.
  unfold passes. rewrite !andb_true_iff, !negb_true_iff.
  intros [[_ H1] H2]. destruct enable; cbn [andb negb] in *.
  - apply negb_false_iff, looks_reasonable_iff in H1. by destruct H1.
  - by apply Z.ltb_ge.
Qed.

(** X10: whichever way the heuristic is switched, no candidate of the
    prefilter is shorter than [min_len]; and the candidates with the
    heuristic are the candidates without it that [looks_reasonable] takes, in
    the same order. *)
Theorem prefilter_heuristic mandatory allowed_set min_len blacklist base_words :
  (∀ enable,
     Forall (λ w, (min_len ≤ Z.of_nat (length w))%Z)
       (prefilter mandatory allowed_set min_len enable blacklist base_words)) ∧
  prefilter mandatory allowed_set min_len true blacklist base_words =
    filter (λ w, looks_reasonable w min_len = true)
      (prefilter mandatory allowed_set min_len false blacklist base_words).
Proof.
  split.
  - intros enable. rewrite prefilter_filter. apply Forall_forall.
    intros w [Hp _]%list_elem_of_filter. by eapply passes_min_len.
  - rewrite !prefilter_filter, list_filter_filter. apply list_filter_iff.
    intros w. unfold passes. cbn [andb negb].
    rewrite !andb_true_iff, !negb_true_iff, Z.ltb_ge, negb_false_iff.
    split; [|tauto]. intros [[H1 H2] _]. split; [done|]. split; [done|].
    apply looks_reasonable_iff in H2. by destruct H2.
Qed.

(** X11: [solve] starts the process at most once, and it starts it exactly
    when the constraints are valid and the prefilter leaves a candidate. *)
Theorem solve_runs hunspell allowed mandatory base_words dict_base dic_dir
    min_len enable_reasonable_filter blacklist :
  runs hunspell (solve allowed mandatory base_words dict_base dic_dir min_len
                   enable_reasonable_filter blacklist) ≤ 1 ∧
  (runs hunspell (solve allowed mandatory base_words dict_base dic_dir min_len
                    enable_reasonable_filter blacklist) = 1 ↔
   valid_constraints (norm allowed) (norm mandatory) ∧
   prefilter (norm mandatory) (list_to_set (norm allowed)) min_len
     enable_reasonable_filter blacklist base_words ≠ []).
Proof.
  unfold solve. cbv zeta.
  change (strip (lower allowed)) with (norm allowed).
  change (strip (lower mandatory)) with (norm mandatory).
  change ASCII_RE_fullmatch with Solver.ASCII_RE_fullmatch.
  destruct (negb (bool_decide (length (norm allowed) = 7%nat))
            || negb (bool_decide (size (list_to_set (norm allowed) : gset ascii) = 7%nat))
            || negb (Solver.ASCII_RE_fullmatch (norm allowed))) eqn:E1.
  { cbn [runs]. split; [lia|]. split; [done|]. intros [V%checks_pass _].
    destruct V as (V & _). congruence. }
  destruct (negb (bool_decide (length (norm mandatory) = 1%nat))
            || negb (Solver.ASCII_RE_fullmatch (norm mandatory))) eqn:E2.
  { cbn [runs]. split; [lia|]. split; [done|]. intros [V%checks_pass _].
    destruct V as (_ & V & _). congruence. }
  destruct (negb (contains (norm mandatory) (norm allowed))) eqn:E3.
  { cbn [runs]. split; [lia|]. split; [done|]. intros [V%checks_pass _].
    destruct V as (_ & _ & V). congruence. }
  pose proof (checks_valid _ _ E1 E2 E3) as V.
  rewrite runs_bind.
  destruct (prefilter (norm mandatory) (list_to_set (norm allowed)) min_len
              enable_reasonable_filter blacklist base_words) as [|x cands].
  - cbn [hunspell_filter_valid runs exec]. split; [lia|]. split; [done|].
    by intros [_ ?].
  - cbn [hunspell_filter_valid runs exec].
    destruct (parse_output _ _); cbn [runs]; (split; [lia|]); done.
Qed.

Lemma splitlines_go_line cur w rest :
  one_line w →
  splitlines_go cur (w ++ newline ++ rest) = (rev cur ++ w) :: splitlines_go [] rest.
Proof.
  intros Hw. revert cur. induction Hw as [|c w Hc _ IH]; intros cur.
  - cbn [app newline splitlines_go]. rewrite app_nil_r.
    change (is_linebreak (chr 10)) with true. cbn iota.
    change ((ord (chr 10) =? 13)%N) with false. cbn [andb]. by destruct rest.
  - cbn [app splitlines_go]. rewrite Hc, IH. cbn [rev]. by rewrite <- app_assoc.
Qed.

Lemma splitlines_join words :
  words ≠ [] → Forall one_line words →
  splitlines (join newline words ++ newline) = words.
Proof.
  unfold splitlines. intros Hne Hall.
  induction Hall as [|w l Hw Hl IH]; [done|].
  destruct l as [|w' l'].
  - change (join newline [w] ++ newline) with (w ++ newline ++ []).
    by rewrite splitlines_go_line.
  - change (join newline (w :: w' :: l')) with (w ++ newline ++ join newline (w' :: l')).
    rewrite <- !app_assoc, splitlines_go_line by done.
    by rewrite IH.
Qed.

(** X12: what is sent to the process reads back as the words: for a list of
    words that is not empty and has no line boundary inside a word,
    [hunspell_filter_valid] starts the process with an input whose lines are
    the words, one line per word and in order. *)
Theorem payload_lines words dict_base dic_dir :
  words ≠ [] → Forall one_line words →
  ∃ k, hunspell_filter_valid words dict_base dic_dir =
         Run [lit "hunspell"; lit "-a"; lit "-d"; dict_base; lit "-i"; lit "UTF-8"]
             dic_dir (join newline words ++ newline) k ∧
       splitlines (join newline words ++ newline) = words.
Proof.
  intros Hne Hall. destruct words as [|x words]; [done|].
  eexists. split; [reflexivity|]. by apply splitlines_join.
Qed.

Lemma payload_lines_witness :
  ∃ k, hunspell_filter_valid [lit "rennen"; lit "allererste"] (lit "de_DE") [] =
         Run [lit "hunspell"; lit "-a"; lit "-d"; lit "de_DE"; lit "-i"; lit "UTF-8"]
             [] (join newline [lit "rennen"; lit "allererste"] ++ newline) k ∧
       splitlines (join newline [lit "rennen"; lit "allererste"] ++ newline) =
         [lit "rennen"; lit "allererste"].
Proof.
  apply (payload_lines [lit "rennen"; lit "allererste"] (lit "de_DE") []).
  - discriminate.
  - by_compute.
Defined.

Lemma splitlines_go_blank rest :
  splitlines_go [] (newline ++ rest) = [] :: splitlines_go [] rest.
Proof. apply (splitlines_go_line [] [] rest). constructor. Qed.

Lemma splitlines_go_answers answers :
  Forall one_line answers →
  splitlines_go [] (concat ((λ a, a ++ newline ++ newline) <$> answers)) =
    concat ((λ a, [a; []]) <$> answers).
Proof.
  induction 1 as [|a l Ha _ IH]; [done|].
  cbn [fmap list_fmap concat]. rewrite <- !app_assoc.
  rewrite splitlines_go_line by done.
  rewrite splitlines_go_blank. by rewrite IH.
Qed.

Lemma result_lines_protocol header answers :
  one_line header → startswith (lit "@") header = true →
  Forall (λ a, one_line a ∧ strip a ≠ [] ∧ startswith (lit "@") a = false) answers →
  result_lines (protocol_output header answers) = strip <$> answers.
Proof.
  intros Hh Hat Hall. unfold result_lines, protocol_output, splitlines.
  rewrite splitlines_go_line by done.
  rewrite splitlines_go_answers by (eapply Forall_impl; [exact Hall|]; by intros ? [? _]).
  cbn [rev app]. rewrite filter_cons, decide_False by (intros [_ ?]; congruence).
  f_equal. induction Hall as [|a l (_ & Ha1 & Ha2) _ IH]; [done|].
  cbn [fmap list_fmap concat app].
  rewrite filter_cons, decide_True by done.
  rewrite filter_cons, decide_False by (by intros [? _]).
  by rewrite IH.
Qed.

Lemma parse_output_protocol words header answer :
  Forall one_line words →
  one_line header → startswith (lit "@") header = true →
  (∀ w, one_line w →
        one_line (answer w) ∧ strip (answer w) ≠ []
        ∧ startswith (lit "@") (answer w) = false) →
  ∃ acc : gset str,
    parse_output words (protocol_output header (answer <$> words)) = inr acc ∧
    ∀ w, w ∈ acc ↔ w ∈ words ∧ startswith (lit "*") (strip (answer w)) = true.
Proof.
  intros Hw Hh Hat Hans.
  destruct (parse_output_spec words (protocol_output header (answer <$> words)))
    as (acc & E & Hacc).
  exists acc. split; [exact E|]. intros w. rewrite Hacc.
  rewrite result_lines_protocol; [|done|done|].
  2:{ apply Forall_fmap. eapply Forall_impl; [exact Hw|]. intros ? ?. by apply Hans. }
  unfold accepted_at. split.
  - intros (i & r & _ & Hi & Hr & Hs).
    rewrite list_lookup_fmap, list_lookup_fmap, Hi in Hr. injection Hr as <-.
    split; [by eapply list_elem_of_lookup_2 | done].
  - intros [(i & Hi)%list_elem_of_lookup Hs]. exists i, (strip (answer w)).
    split; [|split; [done|split; [|done]]].
    + rewrite !length_fmap. apply lookup_lt_Some in Hi. lia.
    + by rewrite !list_lookup_fmap, Hi.
Qed.

Lemma exec_honest hunspell words dict_base dic_dir header answer :
  Forall one_line words →
  one_line header → startswith (lit "@") header = true →
  (∀ w, one_line w →
        one_line (answer w) ∧ strip (answer w) ≠ []
        ∧ startswith (lit "@") (answer w) = false) →
  (∀ argv dicpath inp,
     hunspell argv dicpath inp = protocol_output header (answer <$> splitlines inp)) →
  ∃ accepted : gset str,
    exec hunspell (hunspell_filter_valid words dict_base dic_dir) = inr accepted ∧
    ∀ w, w ∈ accepted ↔ w ∈ words ∧ startswith (lit "*") (strip (answer w)) = true.
Proof.
  intros Hw Hh Hat Hans Hproc. destruct words as [|x words].
  - exists ∅. split; [done|]. intros w. split; [by intros ?%not_elem_of_empty|].
    by intros [?%elem_of_nil _].
  - cbn [hunspell_filter_valid exec]. rewrite Hproc, splitlines_join by done.
    by apply parse_output_protocol.
Qed.

(** X13: a process that keeps to the protocol is read correctly.  Let the
    process print, for the input it is given, a header line beginning with
    [@] and then, for each line of the input, one answer line followed by an
    empty line, an answer being one line, not blank and not beginning with
    [@].  Then for words without line boundary [hunspell_filter_valid]
    returns exactly the words whose answer, stripped, begins with [*]. *)
Theorem honest_process hunspell words dict_base dic_dir header answer :
  Forall one_line words →
  one_line header → startswith (lit "@") header = true →
  (∀ w, one_line w →
        one_line (answer w) ∧ strip (answer w) ≠ []
        ∧ startswith (lit "@") (answer w) = false) →
  (∀ argv dicpath inp,
     hunspell argv dicpath inp = protocol_output header (answer <$> splitlines inp)) →
  ∃ accepted : gset str,
    exec hunspell (hunspell_filter_valid words dict_base dic_dir) = inr accepted ∧
    ∀ w, w ∈ accepted ↔ w ∈ words ∧ startswith (lit "*") (strip (answer w)) = true.
Proof.
  intros Hw Hh Hat Hans Hproc. destruct words as [|x words].
  - exists ∅. split; [reflexivity|]. intros w.
    split; [by intros ?%not_elem_of_empty | by intros [?%elem_of_nil _]].
  - cbn [hunspell_filter_valid exec].
    rewrite Hproc. rewrite splitlines_join; [|discriminate | exact Hw].
    apply parse_output_protocol; assumption.
Qed.

Lemma honest_process_witness :
  ∃ accepted : gset str,
    exec (λ _ _ inp,
            protocol_output (lit "@(#) Hunspell")
              ((λ w, if bool_decide (w = lit "rennen") then lit "*" else lit "# 0")
                 <$> splitlines inp))
         (hunspell_filter_valid [lit "rennen"; lit "renen"] (lit "de_DE") [])
      = inr accepted ∧
    ∀ w, w ∈ accepted ↔
         w ∈ [lit "rennen"; lit "renen"] ∧
         startswith (lit "*")
           (strip (if bool_decide (w = lit "rennen") then lit "*" else lit "# 0")) = true.
Proof.
  apply (honest_process _ [lit "rennen"; lit "renen"] (lit "de_DE") []
           (lit "@(#) Hunspell")
           (λ w, if bool_decide (w = lit "rennen") then lit "*" else lit "# 0")).
  - by_compute.
  - by_compute.
  - reflexivity.
  - intros w _. destruct (bool_decide (w = lit "rennen")).
    + split; [by_compute|]. split; [discriminate | reflexivity].
    + split; [by_compute|]. split; [discriminate | reflexivity].
  - reflexivity.
Defined.

Lemma foldl_blacklist (out : gset str) lines w :
  w ∈ foldl (λ (out : gset str) line,
               let w := lower (strip line) in
               match w with
               | [] => out
               | _ :: _ =>
                   if negb (startswith (lit "#") w) && ASCII_RE_fullmatch w
                   then {[ w ]} ∪ out else out
               end) out lines ↔
    w ∈ out ∨ ∃ line, line ∈ lines ∧ w = lower (strip line) ∧ w ≠ [] ∧ all_az w.
Proof.
  revert out. induction lines as [|line lines IH]; intros out.
  - simpl. split; [auto|]. intros [?|(? & ?%elem_of_nil & _)]; done.
  - cbn [foldl]. rewrite IH. cbv zeta.
    assert ((∃ l, l ∈ line :: lines ∧ w = lower (strip l) ∧ w ≠ [] ∧ all_az w) ↔
            (w = lower (strip line) ∧ w ≠ [] ∧ all_az w) ∨
            (∃ l, l ∈ lines ∧ w = lower (strip l) ∧ w ≠ [] ∧ all_az w)) as ->.
    { split.
      - intros (l & [->|?]%elem_of_cons & ?); [by left | right; by exists l].
      - intros [?|(l & ? & ?)]; [exists line | exists l]; rewrite elem_of_cons; auto. }
    destruct (lower (strip line)) as [|d t] eqn:E.
    { split; [intros [?|?]; auto | intros [?|[[-> [? _]]|?]]; auto; done]. }
    destruct (negb (startswith (lit "#") (d :: t)) && ASCII_RE_fullmatch (d :: t)) eqn:Ec.
    + apply andb_true_iff in Ec as [_ Hf]. apply (fullmatch_iff (d :: t)) in Hf.
      rewrite elem_of_union, elem_of_singleton. split.
      * intros [[->|?]|?]; auto.
      * intros [?|[[-> _]|?]]; auto.
    + assert (¬ (d :: t ≠ [] ∧ all_az (d :: t))) as N.
      { intros Hw. apply (fullmatch_iff (d :: t)) in Hw as Hf.
        change ASCII_RE_fullmatch with Solver.ASCII_RE_fullmatch in Ec.
        rewrite Hf, andb_true_r in Ec. apply negb_false_iff in Ec.
        destruct Hw as [_ Haz]. apply Forall_cons in Haz as [Hd _].
        cbn in Ec. rewrite andb_true_r in Ec. apply bool_decide_eq_true in Ec.
        subst d. by vm_compute in Hd. }
      split; [intros [?|?]; auto | intros [?|[[-> ?]|?]]; auto; done].
Qed.

(** X14: what the blacklist file does: a line of the file counts, lowercased
    and stripped, when it is one or more letters a..z (so a comment line
    never counts, with or without the test for [#]); and a base word that is
    such a line is never a candidate of the prefilter run with that
    blacklist, whatever the other settings. *)
Theorem blacklist_excludes fs path text allowed c min_len enable base_words :
  path ≠ [] → fs path = Some (File text) → all_az allowed →
  ∃ bl, load_blacklist fs (Some path) = inr bl ∧
    (∀ w, w ∈ bl ↔
          ∃ line, line ∈ splitlines text ∧ w = lower (strip line)
                  ∧ w ≠ [] ∧ all_az w) ∧
    (∀ line, line ∈ splitlines text →
             lower (strip line) ∉
               prefilter [c] (list_to_set allowed) min_len enable bl base_words).
Proof.
  intros Hp Hfs Haz. unfold load_blacklist. destruct path as [|p0 path]; [done|].
  rewrite Hfs. eexists. split; [reflexivity|].
  assert (∀ w, w ∈ foldl (λ (out : gset str) line,
               let w := lower (strip line) in
               match w with
               | [] => out
               | _ :: _ =>
                   if negb (startswith (lit "#") w) && ASCII_RE_fullmatch w
                   then {[ w ]} ∪ out else out
               end) ∅ (splitlines text) ↔
            ∃ line, line ∈ splitlines text ∧ w = lower (strip line)
                    ∧ w ≠ [] ∧ all_az w) as Hbl.
  { intros w. rewrite foldl_blacklist. split; [|auto].
    by intros [?%not_elem_of_empty|?]. }
  split; [exact Hbl|]. intros line Hline Hin.
  pose proof (candidate_keeps _ _ _ _ _ _ _ Haz Hin) as Hk.
  apply keeps_iff in Hk as (Hne & Hw & _).
  rewrite prefilter_filter, list_elem_of_filter in Hin. destruct Hin as [Hpass _].
  unfold passes in Hpass. rewrite !andb_true_iff, negb_true_iff in Hpass.
  destruct Hpass as [[[[Hb _] _] _] _]. apply bool_decide_eq_false in Hb.
  apply Hb, Hbl. by exists line.
Qed.

Lemma blacklist_excludes_witness :
  ∃ bl, load_blacklist (λ _, Some (File (lit "# noise" ++ newline ++ lit " Rennen ")))
          (Some (lit "blacklist.txt")) = inr bl ∧
    (∀ w, w ∈ bl ↔
          ∃ line, line ∈ splitlines (lit "# noise" ++ newline ++ lit " Rennen ")
                  ∧ w = lower (strip line) ∧ w ≠ [] ∧ all_az w) ∧
    (∀ line, line ∈ splitlines (lit "# noise" ++ newline ++ lit " Rennen ") →
             lower (strip line) ∉
               prefilter [ "e"%char ] (list_to_set (lit "aelnrst")) 4 true bl scenario_A).
Proof.
  apply (blacklist_excludes (λ _, Some (File (lit "# noise" ++ newline ++ lit " Rennen ")))
           (lit "blacklist.txt")).
  - discriminate.
  - reflexivity.
  - by_compute.
Defined.

Lemma letter_not_linebreak c : is_az c = true → is_linebreak c = false.
Proof. destruct c as [[] [] [] [] [] [] [] []]; vm_compute; congruence. Qed.

(** X22: [solve] as a whole, against a process that keeps to the protocol
    (a header line beginning with [@], then for each input line one answer
    line and one empty line): for valid constraints [solve] gets to its
    report, and the valid words it prints are exactly the base words that get
    through the prefilter and that the process answers with a line beginning
    with [*]. *)
Theorem solve_with_honest_process hunspell allowed mandatory base_words dict_base
    dic_dir min_len enable_reasonable_filter blacklist header answer :
  valid_constraints (norm allowed) (norm mandatory) →
  one_line header → startswith (lit "@") header = true →
  (∀ w, one_line w →
        one_line (answer w) ∧ strip (answer w) ≠ []
        ∧ startswith (lit "@") (answer w) = false) →
  (∀ argv dicpath inp,
     hunspell argv dicpath inp = protocol_output header (answer <$> splitlines inp)) →
  ∃ rep,
    exec hunspell (solve allowed mandatory base_words dict_base dic_dir min_len
                     enable_reasonable_filter blacklist) = inr rep ∧
    ∀ w, w ∈ valid rep ↔
         w ∈ base_words ∧
         survives (norm allowed) (norm mandatory) min_len enable_reasonable_filter
           blacklist w ∧
         startswith (lit "*") (strip (answer w)) = true.
Proof.
  intros V Hh Hat Hans Hproc. unfold solve. cbv zeta.
  change (strip (lower allowed)) with (norm allowed).
  change (strip (lower mandatory)) with (norm mandatory).
  change ASCII_RE_fullmatch with Solver.ASCII_RE_fullmatch.
  destruct (checks_pass _ _ V) as (-> & -> & ->).
  rewrite exec_bind.
  set (cands := prefilter (norm mandatory) (list_to_set (norm allowed)) min_len
                  enable_reasonable_filter blacklist base_words).
  destruct V as (_ & _ & Haz & c & Hm & _).
  assert (Forall one_line cands) as Hone.
  { apply Forall_forall. intros w Hw. unfold cands in Hw. rewrite Hm in Hw.
    apply (candidate_keeps _ _ _ _ _ _ _ Haz), keeps_iff in Hw as (_ & Hw & _).
    eapply Forall_impl; [exact Hw|]. intros ?. apply letter_not_linebreak. }
  destruct (exec_honest hunspell cands dict_base dic_dir header answer
              Hone Hh Hat Hans Hproc) as (acc & -> & Hacc).
  eexists. split; [reflexivity|]. cbn [valid]. intros w.
  rewrite elem_of_sorted_set, list_elem_of_filter, Hacc. unfold cands.
  rewrite Hm, prefilter_filter, list_elem_of_filter, passes_iff. tauto.
Qed.

Lemma solve_with_honest_process_witness :
  ∃ rep,
    exec (λ _ _ inp,
            protocol_output (lit "@(#) Hunspell")
              ((λ w, if bool_decide (w = lit "rennen") then lit "*" else lit "# 0")
                 <$> splitlines inp))
         (solve (lit "aelnrst") (lit "e") scenario_A [] [] 4 true ∅) = inr rep ∧
    ∀ w, w ∈ valid rep ↔
         w ∈ scenario_A ∧
         survives (norm (lit "aelnrst")) (norm (lit "e")) 4 true ∅ w ∧
         startswith (lit "*")
           (strip (if bool_decide (w = lit "rennen") then lit "*" else lit "# 0")) = true.
Proof.
  apply (solve_with_honest_process _ (lit "aelnrst") (lit "e") scenario_A [] [] 4 true ∅
           (lit "@(#) Hunspell")
           (λ w, if bool_decide (w = lit "rennen") then lit "*" else lit "# 0")).
  - exact scenario_A_constraints.
  - by_compute.
  - reflexivity.
  - intros w _. destruct (bool_decide (w = lit "rennen")).
    + split; [by_compute|]. split; [discriminate | reflexivity].
    + split; [by_compute|]. split; [discriminate | reflexivity].
  - reflexivity.
Defined.

(** X23: the two thresholds of [looks_reasonable]: a word that is taken for
    some [min_len] is taken for every smaller one; and for a word of more
    than 8 characters the doubling test plays no part, the word is taken
    exactly when it is long enough and no character other than the line feed
    stands three times in a row. *)
Theorem looks_reasonable_thresholds w min_len min_len' :
  ((min_len' ≤ min_len)%Z → looks_reasonable w min_len = true →
   looks_reasonable w min_len' = true) ∧
  (8 < length w →
   (looks_reasonable w min_len = true ↔
    (min_len ≤ Z.of_nat (length w))%Z ∧ ¬ ∃ c, c ≠ LF ∧ triple c w)).
Proof.
  rewrite !looks_reasonable_iff. unfold reasonable. split.
  - intros Hle (? & ? & ?). split; [lia | done].
  - intros Hlen. split; [tauto|]. intros [? ?]. split; [done|]. split; [done|].
    unfold doubled. lia.
Qed.

Lemma looks_reasonable_thresholds_witness :
  looks_reasonable (lit "abcdeabcde") 4 = true ∧
  (looks_reasonable (lit "abcdeabcde") 9 = true ↔
   (9 ≤ Z.of_nat (length (lit "abcdeabcde")))%Z
   ∧ ¬ ∃ c, c ≠ LF ∧ triple c (lit "abcdeabcde")).
Proof.
  split.
  - apply (proj1 (looks_reasonable_thresholds (lit "abcdeabcde") 9 4)); [lia | reflexivity].
  - apply (proj2 (looks_reasonable_thresholds (lit "abcdeabcde") 9 4)). vm_compute. lia.
Defined.

End pipeline_more.

(** ** The settings: [parse_list_env], [env_bool], [env_int], [load_dotenv] *)

Section settings.
Import Py Main.

Local Ltac each_char c := destruct c as [[] [] [] [] [] [] [] []].

Lemma split_no_sep sep s : Forall (λ x, sep ∉ x) (split sep s).
Proof.
  induction s as [|c s IH]; [repeat constructor; by intros ?%elem_of_nil|].
  cbn [split]. case_bool_decide as E.
  - constructor; [by intros ?%elem_of_nil | done].
  - destruct (split sep s) as [|x l]; [repeat constructor|].
    + rewrite elem_of_cons. intros [->|?%elem_of_nil]; done.
    + apply Forall_cons in IH as [Hx Hl]. constructor; [|done].
      rewrite elem_of_cons. intros [->|?]; done.
Qed.

Lemma split_absent sep s : sep ∉ s → split sep s = [s].
Proof.
  induction s as [|c s IH]; [done|].
  rewrite not_elem_of_cons. intros [N Hs]. cbn [split].
  rewrite bool_decide_eq_false_2 by congruence. by rewrite IH.
Qed.

Lemma split_app sep x rest :
  sep ∉ x → split sep (x ++ sep :: rest) = x :: split sep rest.
Proof.
  induction x as [|c x IH].
  - intros _. cbn [app split]. by rewrite bool_decide_eq_true_2.
  - rewrite not_elem_of_cons. intros [N Hx]. cbn [app split].
    rewrite bool_decide_eq_false_2 by congruence. by rewrite IH.
Qed.

Lemma split_join sep items :
  items ≠ [] → Forall (λ x, sep ∉ x) items → split sep (join [sep] items) = items.
Proof.
  intros Hne Hall. induction Hall as [|x l Hx Hl IH]; [done|].
  destruct l as [|y l'].
  - cbn [join]. by apply split_absent.
  - change (join [sep] (x :: y :: l')) with (x ++ sep :: join [sep] (y :: l')).
    rewrite split_app by done. by rewrite IH.
Qed.

Lemma lstrip_elem c s : c ∈ lstrip s → c ∈ s.
Proof.
  induction s as [|d s IH]; [done|].
  simpl. destruct (isspace d); [|done]. intros ?%IH. by right.
Qed.

Lemma strip_elem c s : c ∈ strip s → c ∈ s.
Proof.
  unfold strip, rstrip. rewrite elem_of_rev. intros ?%lstrip_elem.
  by apply lstrip_elem; rewrite <- elem_of_rev.
Qed.

(** X15: every item [parse_list_env] returns is not empty, has no white
    space around it and holds no comma, whatever the variable or the default
    is. *)
Theorem parse_list_env_items env name default :
  Forall list_item (parse_list_env env name default).
Proof.
  unfold parse_list_env. cbv zeta. apply Forall_fmap, Forall_forall.
  intros x [Hx Hin]%list_elem_of_filter. unfold list_item. simpl.
  split; [done|]. split; [apply strip_idem|].
  intros Hc%strip_elem.
  pose proof (split_no_sep "," (from_option id default (env !! name))) as Hs.
  rewrite Forall_forall in Hs. by apply (Hs x).
Qed.

(** X16: a list written with commas reads back: for items that are not
    empty, stripped and without comma, [parse_list_env] gives the items back
    from their join with [,], be it the value of the variable or, when the
    variable is not set, the default. *)
Theorem parse_list_env_join env name default items :
  Forall list_item items →
  parse_list_env (<[name := join (lit ",") items]> env) name default = items ∧
  (env !! name = None → parse_list_env env name (join (lit ",") items) = items).
Proof.
  intros Hall.
  assert (strip <$> filter (λ x, strip x ≠ []) (split "," (join (lit ",") items)) = items)
    as Hraw.
  { destruct items as [|x0 l0] eqn:Ei; [done|]. rewrite <- Ei in *.
    rewrite split_join; [| by rewrite Ei |].
    2:{ eapply Forall_impl; [exact Hall|]. by intros ? (_ & _ & ?). }
    clear Ei. induction Hall as [|x l (Hne & Hs & _) _ IH]; [done|].
    rewrite filter_cons, decide_True by (by rewrite Hs).
    cbn [fmap list_fmap]. rewrite Hs. f_equal. apply IH. }
  unfold parse_list_env. cbv zeta. split.
  - by rewrite lookup_insert_eq.
  - by intros ->.
Qed.

Lemma parse_list_env_join_witness :
  parse_list_env (<[lit "HUNSPELL_DICT_CANDIDATES" :=
                     join (lit ",") [lit "de_DE_frami"; lit "de_DE"]]> ∅)
    (lit "HUNSPELL_DICT_CANDIDATES") (lit "en_US") = [lit "de_DE_frami"; lit "de_DE"].
Proof.
  apply (parse_list_env_join ∅ (lit "HUNSPELL_DICT_CANDIDATES") (lit "en_US")
           [lit "de_DE_frami"; lit "de_DE"]).
  repeat constructor; try discriminate; by_compute.
Defined.

(** X17: when the variable is set, [env_bool] does not look at the default,
    and the value counts up to case and surrounding white space. *)
Theorem env_bool_value env name v default default' :
  env_bool (<[name := v]> env) name default =
  env_bool (<[name := lower (strip v)]> env) name default'.
Proof.
  unfold env_bool. rewrite !lookup_insert_eq. by rewrite candidate_form_idem.
Qed.

Lemma int_digits_digits ds acc cnt b :
  ds ≠ [] → Forall (λ c, in_range 48 57 c = true) ds →
  int_digits acc cnt b ds = Some (value_of acc ds, (cnt + length ds)%nat).
Proof.
  intros Hne Hall. revert acc cnt b.
  induction Hall as [|c l Hc Hl IH]; [done|]. intros acc cnt b.
  cbn [int_digits]. rewrite Hc. destruct l as [|c' l'].
  - cbn. do 2 f_equal. lia.
  - rewrite IH by done. cbn [length]. do 2 f_equal. lia.
Qed.

Lemma value_of_snoc acc l c :
  value_of acc (l ++ [c]) = (10 * value_of acc l + (ord c - 48))%N.
Proof. unfold value_of. by rewrite foldl_app. Qed.

Lemma ord_digit k : (k < 10)%N → ord (chr (48 + k)) = (48 + k)%N.
Proof. intros H. unfold ord, chr. apply N_ascii_embedding. lia. Qed.

Lemma digit_range k : (k < 10)%N → in_range 48 57 (chr (48 + k)) = true.
Proof.
  intros H. unfold in_range. rewrite ord_digit by done.
  apply andb_true_iff. split; apply N.leb_le; lia.
Qed.

Lemma digits_fuel_S f n :
  digits_fuel (S f) n =
    if (n <? 10)%N then [chr (48 + n)]
    else digits_fuel f (n / 10) ++ [chr (48 + n mod 10)].
Proof. done. Qed.

Lemma digits_fuel_spec f n :
  (n < 2 ^ N.of_nat f)%N →
  digits_fuel (S f) n ≠ []
  ∧ Forall (λ c, in_range 48 57 c = true) (digits_fuel (S f) n)
  ∧ value_of 0 (digits_fuel (S f) n) = n.
Proof.
  revert n. induction f as [|f IH]; intros n Hn.
  - assert (n = 0%N) as -> by (change (2 ^ N.of_nat 0)%N with 1%N in Hn; lia).
    repeat split; [done | by repeat constructor].
  - rewrite digits_fuel_S. destruct (N.ltb_spec n 10) as [Hlt|Hge].
    + split; [done|]. split; [repeat constructor; by apply digit_range|].
      unfold value_of. cbn [foldl]. rewrite ord_digit by done. lia.
    + destruct (IH (n / 10)%N) as (Hne & Hd & Hv).
      { rewrite Nat2N.inj_succ, N.pow_succ_r' in Hn.
        apply N.Div0.div_lt_upper_bound. lia. }
      assert (n mod 10 < 10)%N by (apply N.mod_lt; lia).
      split; [by destruct (digits_fuel (S f) (n / 10))|]. split.
      * apply Forall_app. split; [done|]. repeat constructor. by apply digit_range.
      * rewrite value_of_snoc, Hv, ord_digit by done.
        pose proof (N.div_mod n 10 ltac:(lia)) as Hdm.
        set (q := (n / 10)%N) in *. set (r := (n mod 10)%N) in *.
        clearbody q r. lia.
Qed.

Lemma str_of_N_spec n :
  str_of_N n ≠ []
  ∧ Forall (λ c, in_range 48 57 c = true) (str_of_N n)
  ∧ value_of 0 (str_of_N n) = n.
Proof.
  apply digits_fuel_spec. rewrite N2Nat.id. apply N.size_gt.
Qed.

Lemma int_lstrip_id s : (∀ c, c ∈ s → int_space c = false) → int_lstrip s = s.
Proof.
  destruct s as [|c s]; [done|]. intros H. cbn [int_lstrip].
  by rewrite (H c) by left.
Qed.

Lemma int_strip_id s :
  (∀ c, c ∈ s → int_space c = false) →
  rev (int_lstrip (rev (int_lstrip s))) = s.
Proof.
  intros H. rewrite (int_lstrip_id s), (int_lstrip_id (rev s)), rev_involutive; try done.
  intros c Hc. apply H. by apply elem_of_rev.
Qed.

Lemma digit_plain c :
  in_range 48 57 c = true →
  int_space c = false ∧ (ord c =? 45)%N = false ∧ (ord c =? 43)%N = false.
Proof.
  each_char c; vm_compute; intros H;
    (discriminate H || (repeat split; reflexivity)).
Qed.

Lemma int_of_digits maxd (negative : bool) ds :
  ds ≠ [] → Forall (λ c, in_range 48 57 c = true) ds →
  maxd = 0 ∨ length ds ≤ maxd →
  int maxd (if negative then "-"%char :: ds else ds) =
    Some (if negative then (- Z.of_N (value_of 0 ds))%Z else Z.of_N (value_of 0 ds)).
Proof.
  intros Hne Hd Hmax. unfold int. rewrite Forall_forall in Hd.
  rewrite int_strip_id.
  2:{ intros c Hc. destruct negative.
      - apply elem_of_cons in Hc as [->|Hc]; [done|]. by apply digit_plain, Hd.
      - by apply digit_plain, Hd. }
  assert (negb (maxd =? 0) && (maxd <? length ds) = false) as Hlim.
  { destruct Hmax as [->|Hle]; [done|]. apply andb_false_iff. right.
    by apply Nat.ltb_ge. }
  destruct negative.
  - change ((ord "-" =? 45)%N) with true. cbn iota.
    rewrite int_digits_digits by (by try apply Forall_forall). cbn [Nat.add].
    by rewrite Hlim.
  - destruct ds as [|c ds']; [done|].
    destruct (digit_plain c) as (_ & -> & ->); [apply Hd; left|].
    rewrite int_digits_digits by (by try apply Forall_forall). cbn [Nat.add].
    by rewrite Hlim.
Qed.

Lemma int_str_of_Z maxd z :
  maxd = 0 ∨ length (str_of_Z z) ≤ maxd → int maxd (str_of_Z z) = Some z.
Proof.
  intros Hmax. destruct z as [|p|p].
  - destruct (str_of_N_spec 0) as (Hne & Hd & Hv).
    change (str_of_Z 0) with (str_of_N 0) in *.
    rewrite (int_of_digits maxd false) by done. by rewrite Hv.
  - destruct (str_of_N_spec (Npos p)) as (Hne & Hd & Hv).
    change (str_of_Z (Zpos p)) with (str_of_N (Npos p)) in *.
    rewrite (int_of_digits maxd false) by done. by rewrite Hv.
  - destruct (str_of_N_spec (Npos p)) as (Hne & Hd & Hv).
    change (str_of_Z (Zneg p)) with ("-"%char :: str_of_N (Npos p)) in *.
    rewrite (int_of_digits maxd true); [by rewrite Hv | done | done |].
    destruct Hmax as [?|Hle]; [by left|]. right. cbn [length] in Hle. lia.
Qed.

(** X18: a number written in decimal reads back: when the variable holds the
    decimal writing of an integer (with the digit limit of [int] off, or not
    exceeded), [env_int] returns that integer, not the default. *)
Theorem env_int_round_trip max_str_digits env name default z :
  max_str_digits = 0 ∨ length (str_of_Z z) ≤ max_str_digits →
  env_int max_str_digits (<[name := str_of_Z z]> env) name default = z.
Proof.
  intros H. unfold env_int. by rewrite lookup_insert_eq, int_str_of_Z.
Qed.

Lemma env_int_round_trip_witness :
  env_int 4300 (<[lit "MINLEN" := str_of_Z (-12)]> ∅) (lit "MINLEN") 4 = (-12)%Z.
Proof.
  apply (env_int_round_trip 4300 ∅ (lit "MINLEN") 4 (-12)).
  right. vm_compute. lia.
Defined.

Lemma int_digits_chars s acc cnt b r :
  int_digits acc cnt b s = Some r →
  ∀ c, c ∈ s → in_range 48 57 c || (ord c =? 95)%N = true.
Proof.
  revert acc cnt b. induction s as [|d s IH]; intros acc cnt b E c;
    [by intros ?%elem_of_nil|].
  cbn [int_digits] in E. rewrite elem_of_cons.
  destruct (in_range 48 57 d) eqn:Ed.
  - intros [->|Hc]; [by rewrite Ed | by eapply IH].
  - destruct ((ord d =? 95)%N && b) eqn:Eu; [|done].
    apply andb_true_iff in Eu as [Eu _].
    intros [->|Hc]; [by rewrite Eu, orb_true_r | by eapply IH].
Qed.

Lemma elem_of_int_lstrip c s : c ∈ s → int_space c = true ∨ c ∈ int_lstrip s.
Proof.
  induction s as [|d s IH]; [by intros ?%elem_of_nil|].
  rewrite elem_of_cons. cbn [int_lstrip]. destruct (int_space d) eqn:E.
  - intros [->|?]; auto.
  - rewrite elem_of_cons. auto.
Qed.

Lemma int_foreign maxd v c : c ∈ v → int_char c = false → int maxd v = None.
Proof.
  intros Hc Hf. unfold int_char in Hf.
  rewrite !orb_false_iff, !bool_decide_eq_false in Hf.
  destruct Hf as [[[[Hdig Hus] Hplus] Hminus] Hsp].
  assert (c ∈ rev (int_lstrip (rev (int_lstrip v)))) as Ht.
  { apply elem_of_int_lstrip in Hc as [?|Hc]; [congruence|].
    rewrite elem_of_rev. rewrite <- elem_of_rev in Hc.
    apply elem_of_int_lstrip in Hc as [?|Hc]; [congruence | done]. }
  unfold int. set (t := rev (int_lstrip (rev (int_lstrip v)))) in *.
  assert (∀ body, c ∈ body →
            match int_digits 0 0 false body with
            | Some (n, count) =>
                if negb (maxd =? 0) && (maxd <? count) then None
                else Some (if true then (- Z.of_N n)%Z else Z.of_N n)
            | None => None
            end = None ∧
            match int_digits 0 0 false body with
            | Some (n, count) =>
                if negb (maxd =? 0) && (maxd <? count) then None
                else Some (if false then (- Z.of_N n)%Z else Z.of_N n)
            | None => None
            end = None) as Hbody.
  { intros body Hb. destruct (int_digits 0 0 false body) as [[n cnt]|] eqn:E; [|done].
    pose proof (int_digits_chars _ _ _ _ _ E c Hb) as Hch.
    apply orb_true_iff in Hch as [?|Hu%N.eqb_eq]; [congruence|].
    destruct Hus. apply ord_inj. by rewrite Hu. }
  destruct t as [|h t']; [by apply elem_of_nil in Ht|].
  destruct (N.eqb_spec (ord h) 45) as [E45|N45].
  { apply elem_of_cons in Ht as [->|Ht].
    - destruct Hminus. apply ord_inj. by rewrite E45.
    - by apply Hbody. }
  destruct (N.eqb_spec (ord h) 43) as [E43|N43].
  { apply elem_of_cons in Ht as [->|Ht].
    - destruct Hplus. apply ord_inj. by rewrite E43.
    - by apply Hbody. }
  by apply Hbody.
Qed.

(** X19: [env_int] falls back to the default on a value that is not the
    text of an integer: when the value holds an ASCII character other than a
    digit 0..9, an underscore, a sign, or the white space TAB..CR and space,
    the default comes back (and no exception).  Beyond ASCII [int] takes
    further digits and white space, so the statement is on ASCII characters
    only. *)
Theorem env_int_fallback max_str_digits env name default v c :
  c ∈ v → (ord c < 128)%N → int_char c = false →
  env_int max_str_digits (<[name := v]> env) name default = default.
Proof.
  intros Hc _ Hf. unfold env_int.
  by rewrite lookup_insert_eq, (int_foreign _ _ _ Hc Hf).
Qed.

Lemma env_int_fallback_witness :
  env_int 4300 (<[lit "MINLEN" := lit "4.0"]> ∅) (lit "MINLEN") 4 = 4%Z.
Proof.
  apply (env_int_fallback 4300 ∅ (lit "MINLEN") 4 (lit "4.0") "."%char).
  - by_compute.
  - reflexivity.
  - reflexivity.
Defined.

Lemma split1_cases sep s :
  ((sep ∉ s) ∧ split1 sep s = [s]) ∨ (sep ∈ s ∧ ∃ k v, split1 sep s = [k; v]).
Proof.
  induction s as [|c s IH].
  - left. split; [by intros ?%elem_of_nil | done].
  - cbn [split1]. case_bool_decide as E.
    + subst c. right. split; [left|]. by eexists _, _.
    + destruct IH as [[N ->]|[Hin (k & v & ->)]].
      * left. split; [|done]. rewrite not_elem_of_cons. done.
      * right. split; [by right|]. by eexists _, _.
Qed.

Lemma dotenv_step_assignment env line :
  dotenv_step (inr env) line =
    match assignment line with
    | None => inr env
    | Some (k, v) => setdefault env k v
    end.
Proof.
  unfold dotenv_step, assignment. cbv zeta.
  destruct (strip line) as [|d t] eqn:E; [done|].
  destruct (startswith (lit "#") (d :: t)); [done|]. cbn [orb].
  destruct (contains (lit "=") (d :: t)) eqn:Ec; [|done]. cbn [negb].
  apply (contains_single "=" (d :: t)) in Ec.
  destruct (split1_cases "=" (d :: t)) as [[N _]|[_ (k & v & ->)]]; done.
Qed.

Lemma foldl_dotenv_inl e lines : foldl dotenv_step (inl e) lines = inl e.
Proof. induction lines as [|l lines IH]; [done|]. apply IH. Qed.

Lemma setdefault_inr env k v env1 :
  setdefault env k v = inr env1 →
  (is_Some (env !! k) ∧ env1 = env) ∨ (env !! k = None ∧ env1 = <[k := v]> env).
Proof.
  unfold setdefault. destruct (env !! k) as [x|] eqn:E.
  - intros [= <-]. left. by split; [eexists|].
  - destruct (bool_decide (chr 0 ∈ k) || bool_decide (chr 0 ∈ v)); [done|].
    destruct k; [done|]. intros [= <-]. by right.
Qed.

Lemma setdefault_fresh (env : gmap str str) (k v : str) :
  env !! k = None → k ≠ [] → chr 0 ∉ k → chr 0 ∉ v →
  setdefault env k v = inr (<[k := v]> env).
Proof.
  intros Hk Hne Hk0 Hv0. unfold setdefault. rewrite Hk.
  rewrite !bool_decide_eq_false_2 by done. by destruct k.
Qed.

Lemma setdefault_present (env : gmap str str) (k v : str) :
  is_Some (env !! k) → setdefault env k v = inr env.
Proof. intros [x Hx]. unfold setdefault. by rewrite Hx. Qed.

Lemma foldl_dotenv_lookup lines env env' name :
  foldl dotenv_step (inr env) lines = inr env' →
  env' !! name = match env !! name with
                 | Some v => Some v
                 | None => first_value name lines
                 end.
Proof.
  revert env. induction lines as [|l lines IH]; intros env.
  - intros [= <-]. cbn. by destruct (env !! name).
  - cbn [foldl first_value]. rewrite dotenv_step_assignment.
    destruct (assignment l) as [[k v]|]; [|apply IH].
    destruct (setdefault env k v) as [e|env1] eqn:Es;
      [by rewrite foldl_dotenv_inl|].
    intros E. rewrite (IH _ E).
    apply setdefault_inr in Es as [[[x Hx] ->]|[Hk ->]].
    + case_bool_decide as Ek; [|done]. subst k. by rewrite Hx.
    + case_bool_decide as Ek.
      * subst k. by rewrite lookup_insert_eq, Hk.
      * by rewrite lookup_insert_ne.
Qed.

(** X20: what [load_dotenv] leaves in the environment when it goes through:
    a name that was set keeps its value, whatever the file says; a name that
    was not set gets the value of the first line of the file that assigns
    it, and stays unset when no line does.  So the environment only grows. *)
Theorem load_dotenv_lookup text env env' name :
  load_dotenv (Some (File text)) env = inr env' →
  env' !! name = match env !! name with
                 | Some v => Some v
                 | None => first_value name (splitlines text)
                 end
  ∧ env ⊆ env'.
Proof.
  cbn [load_dotenv]. intros E. split; [by apply foldl_dotenv_lookup|].
  apply map_subseteq_spec. intros k v Hk.
  by rewrite (foldl_dotenv_lookup _ _ _ k E), Hk.
Qed.

Lemma load_dotenv_lookup_witness :
  <[lit "A" := lit "1"]> (∅ : gmap str str) !! lit "A" =
    match (∅ : gmap str str) !! lit "A" with
    | Some v => Some v
    | None => first_value (lit "A") (splitlines dotenv_sample)
    end
  ∧ (∅ : gmap str str) ⊆ <[lit "A" := lit "1"]> ∅.
Proof.
  apply (load_dotenv_lookup dotenv_sample ∅).
  unfold load_dotenv.
  change (splitlines dotenv_sample)
    with [quoted_line; lit "A=2"].
  cbn [foldl]. rewrite (dotenv_step_assignment ∅).
  change (assignment quoted_line) with (Some (lit "A", lit "1")). cbn iota.
  rewrite setdefault_fresh; [|apply lookup_empty | discriminate | by_compute | by_compute].
  rewrite dotenv_step_assignment.
  change (assignment (lit "A=2")) with (Some (lit "A", lit "2")). cbn iota.
  apply setdefault_present. rewrite lookup_insert_eq. by eexists.
Defined.

Lemma first_value_some name lines l v :
  l ∈ lines → assignment l = Some (name, v) → is_Some (first_value name lines).
Proof.
  induction lines as [|l' lines IH]; [by intros ?%elem_of_nil|].
  rewrite elem_of_cons. cbn [first_value]. intros [->|Hin] Ha.
  - rewrite Ha, bool_decide_eq_true_2 by done. by eexists.
  - destruct (assignment l') as [[k' v']|]; [|by apply IH].
    case_bool_decide; [by eexists | by apply IH].
Qed.

Lemma foldl_dotenv_settled lines env :
  (∀ l k v, l ∈ lines → assignment l = Some (k, v) → is_Some (env !! k)) →
  foldl dotenv_step (inr env) lines = inr env.
Proof.
  induction lines as [|l lines IH]; [done|]. intros H.
  cbn [foldl]. rewrite dotenv_step_assignment.
  destruct (assignment l) as [[k v]|] eqn:Ea.
  - destruct (H l k v) as [x Hx]; [left | done |].
    unfold setdefault. rewrite Hx. apply IH. intros l' k' v' ? ?.
    apply (H l' k' v'); [by right | done].
  - apply IH. intros l' k' v' ? ?. apply (H l' k' v'); [by right | done].
Qed.

(** X21: loading the file a second time changes nothing: when [load_dotenv]
    goes through, running it again on the environment it left gives that
    environment back. *)
Theorem load_dotenv_again file env env' :
  load_dotenv file env = inr env' → load_dotenv file env' = inr env'.
Proof.
  destruct file as [[text|]|]; [|done|done].
  cbn [load_dotenv]. intros E. apply foldl_dotenv_settled. intros l k v Hl Ha.
  rewrite (foldl_dotenv_lookup _ _ _ k E).
  destruct (env !! k); [by eexists|]. by eapply first_value_some.
Qed.

Lemma load_dotenv_again_witness :
  load_dotenv (Some (File (lit "A=1"))) (<[lit "A" := lit "1"]> ∅) =
    inr (<[lit "A" := lit "1"]> ∅).
Proof.
  apply (load_dotenv_again (Some (File (lit "A=1"))) ∅).
  unfold load_dotenv. change (splitlines (lit "A=1")) with [lit "A=1"].
  cbn [foldl]. rewrite (dotenv_step_assignment ∅).
  change (assignment (lit "A=1")) with (Some (lit "A", lit "1")). cbn iota.
  apply setdefault_fresh; [apply lookup_empty | discriminate | by_compute | by_compute].
Defined.

End settings.
